(** * Zero Merkle trees: sparse and append-only trees with delta proofs

    A shallow embedding of the TypeScript tutorial code
    ([ZeroMerkleTree] with its [NodeStore], [AppendOnlyMerkleTree],
    [computeMerkleRootFromProof], [verifyMerkleProof] and
    [verifyDeltaMerkleProof]) together with the properties of its
    specification.

    Modelling conventions.
    - A [MerkleNodeValue] is a JavaScript string, here [string].
    - The hash primitive (sha.js) is an external collaborator: every
      definition is parametrised by [hash].
    - JavaScript numbers holding leaf indices are integers, here [Z]
      (the sentinel [-1] of the append-only tree is an index), which is
      exact as long as every index formed is below [2^53] in magnitude;
      [x % 2 === 0] is [Z.rem x 2 =? 0] and [Math.floor(x / m)] is [x / m]
      (floor division for [m > 0]).  From [2^53] on, [index + 1] and
      [index - 1] are rounded; [setLeaf_f64] is [setLeaf] with that
      rounding, and the two agree below [2^53].  Heights and levels are
      loop bounds, here [nat].
    - An array is a [list]; a read [a[i]] is [arr_get a i], which yields
      [undefined] out of range, as JavaScript does without raising.
    - The object [nodes] used as a dictionary is a [gmap] whose keys are the
      strings [level + "_" + index] of the source, with the numbers in
      decimal; [contains] asks for an own property, so nothing but the
      entries of the map is ever found.
    - Mutation of [this] is explicit state passing: a method returns its
      result together with the updated object. *)

From Stdlib Require Import ZArith Lia Ascii.
From stdpp Require Import base option list strings pretty gmap.

Local Open Scope Z_scope.

(** ** Data model *)

Definition MerkleNodeValue : Type := string.

Record IMerkleProof : Type := MkMerkleProof {
  root : MerkleNodeValue;
  siblings : list MerkleNodeValue;
  index : Z;
  value : MerkleNodeValue
}.

Record IDeltaMerkleProof : Type := MkDeltaMerkleProof {
  delta_index : Z;
  delta_siblings : list MerkleNodeValue;
  oldRoot : MerkleNodeValue;
  oldValue : MerkleNodeValue;
  newRoot : MerkleNodeValue;
  newValue : MerkleNodeValue
}.

(** The literal of 64 zeros that the source writes out in
    [computeZeroHashes] and in [appendLeaf]. *)
Definition zeroDigest : MerkleNodeValue :=
  "0000000000000000000000000000000000000000000000000000000000000000".

(** What an out-of-range array read flows on as. *)
Definition undefined : MerkleNodeValue := "undefined".

(** [a[i]] on an array of node values. *)
Definition arr_get (a : list MerkleNodeValue) (i : nat) : MerkleNodeValue :=
  default undefined (a !! i).

(** [a[i]] when [i] is the result of a subtraction: a negative index is
    no element of the array. *)
Definition arr_get_Z (a : list MerkleNodeValue) (i : Z) : MerkleNodeValue :=
  if i <? 0 then undefined else arr_get a (Z.to_nat i).

(** The dictionary key [level + "_" + index] of [NodeStore]. *)
Definition nodeKey (level : nat) (index : Z) : string :=
  pretty level +:+ "_" +:+ pretty index.

(** No character of [s] is an underscore. *)
Fixpoint underscore_free (s : string) : Prop :=
  match s with
  | EmptyString => True
  | String c s' => c ≠ "_"%char ∧ underscore_free s'
  end.

Record NodeStore : Type := MkNodeStore {
  nodes : gmap string MerkleNodeValue;
  store_height : nat;
  store_zeroHashes : list MerkleNodeValue
}.

Record ZeroMerkleTree : Type := MkZeroMerkleTree {
  zmt_height : nat;
  nodeStore : NodeStore
}.

Record AppendOnlyMerkleTree : Type := MkAppendOnlyMerkleTree {
  height : nat;
  lastProof : IMerkleProof;
  zeroHashes : list MerkleNodeValue
}.

(** ** Operations, parametrised by the hash primitive *)

Section Operations.

Context (hash : MerkleNodeValue -> MerkleNodeValue -> MerkleNodeValue).

(** The body of the [for (i = 1; i <= height; i++)] loop of
    [computeZeroHashes], run [n] more times. *)
Fixpoint computeZeroHashes_loop (n : nat) (currentZeroHash : MerkleNodeValue)
    (acc : list MerkleNodeValue) : list MerkleNodeValue :=
  match n with
  | O => acc
  | S n' =>
      let currentZeroHash := hash currentZeroHash currentZeroHash in
      computeZeroHashes_loop n' currentZeroHash (acc ++ [currentZeroHash])
  end.

Definition computeZeroHashes (height : nat) : list MerkleNodeValue :=
  computeZeroHashes_loop height zeroDigest [zeroDigest].

(** *** NodeStore *)

Definition NodeStore_new (height : nat) : NodeStore :=
  {| nodes := ∅; store_height := height;
     store_zeroHashes := computeZeroHashes height |}.

Definition NodeStore_contains (st : NodeStore) (level : nat) (index : Z) : bool :=
  bool_decide (is_Some (nodes st !! nodeKey level index)).

Definition NodeStore_set (st : NodeStore) (level : nat) (index : Z)
    (value : MerkleNodeValue) : NodeStore :=
  {| nodes := <[nodeKey level index := value]> (nodes st);
     store_height := store_height st;
     store_zeroHashes := store_zeroHashes st |}.

Definition NodeStore_get (st : NodeStore) (level : nat) (index : Z)
    : MerkleNodeValue :=
  if NodeStore_contains st level index
  then default undefined (nodes st !! nodeKey level index)
  else arr_get_Z (store_zeroHashes st)
         (Z.of_nat (store_height st) - Z.of_nat level).

(** *** ZeroMerkleTree *)

Definition ZeroMerkleTree_new (height : nat) : ZeroMerkleTree :=
  {| zmt_height := height; nodeStore := NodeStore_new height |}.

(** The [for (level = height; level > 0; level--)] loop of [setLeaf]; the
    loop state is the store, [currentIndex], [currentValue] and the
    [siblings] pushed so far.  The index arithmetic is that of integers;
    [setLeaf_loop_f64] is the loop with the rounding of numbers. *)
Fixpoint setLeaf_loop (level : nat) (st : NodeStore) (currentIndex : Z)
    (currentValue : MerkleNodeValue) (siblings : list MerkleNodeValue)
    : NodeStore * Z * MerkleNodeValue * list MerkleNodeValue :=
  match level with
  | O => (st, currentIndex, currentValue, siblings)
  | S level' =>
      let st := NodeStore_set st level currentIndex currentValue in
      if Z.rem currentIndex 2 =? 0 then
        let rightSibling := NodeStore_get st level (currentIndex + 1) in
        setLeaf_loop level' st (currentIndex / 2)
          (hash currentValue rightSibling) (siblings ++ [rightSibling])
      else
        let leftSibling := NodeStore_get st level (currentIndex - 1) in
        setLeaf_loop level' st (currentIndex / 2)
          (hash leftSibling currentValue) (siblings ++ [leftSibling])
  end.

Definition setLeaf (t : ZeroMerkleTree) (index : Z) (value : MerkleNodeValue)
    : IDeltaMerkleProof * ZeroMerkleTree :=
  let oldRoot := NodeStore_get (nodeStore t) 0 0 in
  let oldValue := NodeStore_get (nodeStore t) (zmt_height t) index in
  let '(st, _, currentValue, siblings) :=
    setLeaf_loop (zmt_height t) (nodeStore t) index value [] in
  let st := NodeStore_set st 0 0 currentValue in
  ({| delta_index := index; delta_siblings := siblings;
      oldRoot := oldRoot; oldValue := oldValue;
      newRoot := currentValue; newValue := value |},
   {| zmt_height := zmt_height t; nodeStore := st |}).

Definition getRoot (t : ZeroMerkleTree) : MerkleNodeValue :=
  NodeStore_get (nodeStore t) 0 0.

(** *** Proof paths *)

(** One pass of the loop body shared by [computeMerkleRootFromProof] and
    [computeMerklePathFromProof]: the parent of the path node. *)
Definition parentOnPath (merklePathNodeIndex : Z)
    (merklePathNodeValue merklePathNodeSibling : MerkleNodeValue)
    : MerkleNodeValue :=
  if Z.rem merklePathNodeIndex 2 =? 0
  then hash merklePathNodeValue merklePathNodeSibling
  else hash merklePathNodeSibling merklePathNodeValue.

(** [computeMerkleRootFromProof]: the loop visits [siblings[0]],
    [siblings[1]], ... in order. *)
Fixpoint computeMerkleRootFromProof (siblings : list MerkleNodeValue)
    (index : Z) (value : MerkleNodeValue) : MerkleNodeValue :=
  match siblings with
  | [] => value
  | merklePathNodeSibling :: rest =>
      computeMerkleRootFromProof rest (index / 2)
        (parentOnPath index value merklePathNodeSibling)
  end.

(** [computeMerklePathFromProof]: as above, keeping every path node. *)
Fixpoint computeMerklePathFromProof_loop (siblings : list MerkleNodeValue)
    (merklePathNodeIndex : Z) (merklePathNodeValue : MerkleNodeValue)
    (merklePath : list MerkleNodeValue) : list MerkleNodeValue :=
  match siblings with
  | [] => merklePath
  | merklePathNodeSibling :: rest =>
      let merklePathNodeValue :=
        parentOnPath merklePathNodeIndex merklePathNodeValue
          merklePathNodeSibling in
      computeMerklePathFromProof_loop rest (merklePathNodeIndex / 2)
        merklePathNodeValue (merklePath ++ [merklePathNodeValue])
  end.

Definition computeMerklePathFromProof (siblings : list MerkleNodeValue)
    (index : Z) (value : MerkleNodeValue) : list MerkleNodeValue :=
  computeMerklePathFromProof_loop siblings index value [value].

Definition verifyMerkleProof (proof : IMerkleProof) : bool :=
  String.eqb (root proof)
    (computeMerkleRootFromProof (siblings proof) (index proof) (value proof)).

Definition verifyDeltaMerkleProof (deltaMerkleProof : IDeltaMerkleProof) : bool :=
  let oldProof :=
    {| siblings := delta_siblings deltaMerkleProof;
       index := delta_index deltaMerkleProof;
       root := oldRoot deltaMerkleProof;
       value := oldValue deltaMerkleProof |} in
  let newProof :=
    {| siblings := delta_siblings deltaMerkleProof;
       index := delta_index deltaMerkleProof;
       root := newRoot deltaMerkleProof;
       value := newValue deltaMerkleProof |} in
  verifyMerkleProof oldProof && verifyMerkleProof newProof.

(** *** AppendOnlyMerkleTree *)

Definition AppendOnlyMerkleTree_new (height : nat) : AppendOnlyMerkleTree :=
  let zeroHashes := computeZeroHashes height in
  {| height := height;
     zeroHashes := zeroHashes;
     lastProof :=
       {| root := arr_get zeroHashes height;
          siblings := take height zeroHashes;
          index := -1;
          value := arr_get zeroHashes height |} |}.

(** The [for (level = 0; level < this.height; level++)] loop of
    [appendLeaf], with [n] passes left; the loop state is [level],
    [multiplier] and the [siblings] pushed so far. *)
Fixpoint appendLeaf_loop (zeroHashes oldSiblings oldMerklePath : list MerkleNodeValue)
    (prevIndex newIndex : Z) (n : nat) (level : nat) (multiplier : Z)
    (siblings : list MerkleNodeValue) : list MerkleNodeValue :=
  match n with
  | O => siblings
  | S n' =>
      let prevLevelIndex := prevIndex / multiplier in
      let newLevelIndex := newIndex / multiplier in
      let pushed :=
        if newLevelIndex =? prevLevelIndex then arr_get oldSiblings level
        else if Z.rem newLevelIndex 2 =? 0 then arr_get zeroHashes level
        else arr_get oldMerklePath level in
      appendLeaf_loop zeroHashes oldSiblings oldMerklePath prevIndex newIndex
        n' (S level) (multiplier * 2) (siblings ++ [pushed])
  end.

Definition appendLeaf (t : AppendOnlyMerkleTree) (leafValue : MerkleNodeValue)
    : IDeltaMerkleProof * AppendOnlyMerkleTree :=
  let oldMerklePath :=
    computeMerklePathFromProof (siblings (lastProof t)) (index (lastProof t))
      (value (lastProof t)) in
  let oldRoot := root (lastProof t) in
  let oldValue := zeroDigest in
  let prevIndex := index (lastProof t) in
  let newIndex := prevIndex + 1 in
  let oldSiblings := siblings (lastProof t) in
  let siblings :=
    appendLeaf_loop (zeroHashes t) oldSiblings oldMerklePath prevIndex newIndex
      (height t) 0 1 [] in
  let newRoot := computeMerkleRootFromProof siblings newIndex leafValue in
  let lastProof' :=
    {| root := newRoot; siblings := siblings; index := newIndex;
       value := leafValue |} in
  ({| delta_index := index lastProof'; delta_siblings := siblings;
      oldRoot := oldRoot; oldValue := oldValue;
      newRoot := newRoot; newValue := leafValue |},
   {| height := height t; lastProof := lastProof'; zeroHashes := zeroHashes t |}).

(** *** Sequences of calls *)

(** [calls.map(([i, v]) => tree.setLeaf(i, v))]: the proofs in call order
    and the tree afterwards. *)
Fixpoint setLeaves (t : ZeroMerkleTree) (calls : list (Z * MerkleNodeValue))
    : list IDeltaMerkleProof * ZeroMerkleTree :=
  match calls with
  | [] => ([], t)
  | (index, value) :: rest =>
      let '(p, t') := setLeaf t index value in
      let '(ps, t'') := setLeaves t' rest in
      (p :: ps, t'')
  end.

(** [leaves.map(v => tree.appendLeaf(v))]. *)
Fixpoint appendLeaves (t : AppendOnlyMerkleTree) (leaves : list MerkleNodeValue)
    : list IDeltaMerkleProof * AppendOnlyMerkleTree :=
  match leaves with
  | [] => ([], t)
  | leafValue :: rest =>
      let '(p, t') := appendLeaf t leafValue in
      let '(ps, t'') := appendLeaves t' rest in
      (p :: ps, t'')
  end.

End Operations.


(** [leaves.map((leaf, index) => tree.setLeaf(index, leaf))], the call
    pattern of the source's demonstration: leaf [i] of the list goes to
    index [i]. *)
Definition inOrderCalls (leaves : list MerkleNodeValue)
    : list (Z * MerkleNodeValue) :=
  imap (λ i leaf, (Z.of_nat i, leaf)) leaves.

(** ** The loop of [computeMerkleRootFromProof] as a transition system

    A loop state holds the counter [i], [merklePathNodeValue] and
    [merklePathNodeIndex].  A pass needs [siblings[i]] to be an element of
    the array; the loop is over when [i < siblings.length] fails. *)

Record FoldState : Type := MkFoldState {
  fold_i : nat;
  fold_value : MerkleNodeValue;
  fold_index : Z
}.

Section FoldMachine.

Context (hash : MerkleNodeValue -> MerkleNodeValue -> MerkleNodeValue).

Inductive fold_step (siblings : list MerkleNodeValue)
    : FoldState -> FoldState -> Prop :=
| fold_step_pass (i : nat) (v sib : MerkleNodeValue) (idx : Z) :
    siblings !! i = Some sib ->
    fold_step siblings (MkFoldState i v idx)
      (MkFoldState (S i) (parentOnPath hash idx v sib) (idx / 2)).

Definition fold_done (siblings : list MerkleNodeValue) (s : FoldState) : Prop :=
  ¬ (fold_i s < length siblings)%nat.

End FoldMachine.

(** ** Reference semantics: the full tree over a leaf assignment

    The properties of both trees are stated against the tree that a leaf
    assignment [leaf : Z -> MerkleNodeValue] denotes. *)

Section Reference.

Context (hash : MerkleNodeValue -> MerkleNodeValue -> MerkleNodeValue).

(** The zero hash expected for an empty subtree of height [k]. *)
Fixpoint zeroHash (k : nat) : MerkleNodeValue :=
  match k with
  | O => zeroDigest
  | S k' => hash (zeroHash k') (zeroHash k')
  end.

(** The node [k] levels above the leaves at position [i] of its level. *)
Fixpoint nodeValue (leaf : Z -> MerkleNodeValue) (k : nat) (i : Z)
    : MerkleNodeValue :=
  match k with
  | O => leaf i
  | S k' => hash (nodeValue leaf k' (2 * i)) (nodeValue leaf k' (2 * i + 1))
  end.

(** Position of the other child of the parent, with the parity test of
    the source. *)
Definition siblingIndex (i : Z) : Z :=
  if Z.rem i 2 =? 0 then i + 1 else i - 1.

(** The siblings of the [k] lowest nodes on the path that starts at
    position [i], [t] levels above the leaves (bottom-up). *)
Fixpoint authPath (leaf : Z -> MerkleNodeValue) (t k : nat) (i : Z)
    : list MerkleNodeValue :=
  match k with
  | O => []
  | S k' =>
      nodeValue leaf t (siblingIndex i) :: authPath leaf (S t) k' (i / 2)
  end.

(** The siblings along the path from [(level, currentIndex)] up to
    level 1, as a given store holds them. *)
Fixpoint storeSiblings (st : NodeStore) (level : nat) (currentIndex : Z)
    : list MerkleNodeValue :=
  match level with
  | O => []
  | S level' =>
      NodeStore_get st level (siblingIndex currentIndex)
        :: storeSiblings st level' (currentIndex / 2)
  end.

(** A store of a tree of height [h] represents the leaf assignment
    [leaf]: every node, stored or defaulted, reads as the node of the full
    tree. *)
Definition represents (h : nat) (st : NodeStore) (leaf : Z -> MerkleNodeValue)
    : Prop :=
  store_height st = h ∧
  store_zeroHashes st = computeZeroHashes hash h ∧
  ∀ (l : nat) (i : Z), (l ≤ h)%nat →
    NodeStore_get st l i = nodeValue leaf (h - l) i.

Definition treeRepresents (h : nat) (t : ZeroMerkleTree)
    (leaf : Z -> MerkleNodeValue) : Prop :=
  zmt_height t = h ∧ represents h (nodeStore t) leaf.

(** The state of an append-only tree of height [h] after [n] appends that
    produced the leaf assignment [leaf]. *)
Definition frontier (h : nat) (t : AppendOnlyMerkleTree) (n : Z)
    (leaf : Z -> MerkleNodeValue) : Prop :=
  height t = h ∧
  zeroHashes t = computeZeroHashes hash h ∧
  index (lastProof t) = n - 1 ∧
  siblings (lastProof t) = authPath leaf 0 h (n - 1) ∧
  root (lastProof t) = nodeValue leaf h 0 ∧
  (1 ≤ n → value (lastProof t) = leaf (n - 1)).

End Reference.

Definition noLeaves : Z -> MerkleNodeValue := λ _, zeroDigest.

Definition leafUpdate (leaf : Z -> MerkleNodeValue) (index : Z)
    (value : MerkleNodeValue) : Z -> MerkleNodeValue :=
  λ j, if j =? index then value else leaf j.

(** The assignment after a sequence of writes [(index, value)]. *)
Definition applyCalls (leaf : Z -> MerkleNodeValue)
    (calls : list (Z * MerkleNodeValue)) : Z -> MerkleNodeValue :=
  foldl (λ f c, leafUpdate f c.1 c.2) leaf calls.

(** The writes that appending [leaves] after [n] earlier leaves amounts
    to. *)
Definition callsFrom (n : Z) (leaves : list MerkleNodeValue)
    : list (Z * MerkleNodeValue) :=
  imap (λ i leaf, (n + Z.of_nat i, leaf)) leaves.

(** The sibling that pass [level] of the loop of [appendLeaf] pushes,
    with [multiplier] at its value [2^level]. *)
Definition appendSibling (zeroHashes oldSiblings oldMerklePath : list MerkleNodeValue)
    (prevIndex newIndex : Z) (level : nat) : MerkleNodeValue :=
  let multiplier := 2 ^ Z.of_nat level in
  let prevLevelIndex := prevIndex / multiplier in
  let newLevelIndex := newIndex / multiplier in
  if newLevelIndex =? prevLevelIndex then arr_get oldSiblings level
  else if Z.rem newLevelIndex 2 =? 0 then arr_get zeroHashes level
  else arr_get oldMerklePath level.

(** Every leaf at position [n] or later is empty. *)
Definition emptyFrom (n : Z) (leaf : Z -> MerkleNodeValue) : Prop :=
  ∀ j, n ≤ j → leaf j = zeroDigest.

(** ** A collision-free stand-in for the hash primitive

    [pairHash a b] writes [a] with a [1] before each character, then a
    [0], then [b]; used to instantiate the development on concrete
    inputs. *)
Fixpoint pairHash (a b : MerkleNodeValue) : MerkleNodeValue :=
  match a with
  | EmptyString => String "0" b
  | String c a' => String "1" (String c (pairHash a' b))
  end.

(** No two different pairs of strings have the same hash.  An
    idealisation: [pairHash] has it, no function into digests of a fixed
    width has it, and neither has the source's hash, which digests the
    concatenation of its arguments; it is assumed only where a statement
    names it. *)
Definition collisionFree
    (hash : MerkleNodeValue -> MerkleNodeValue -> MerkleNodeValue) : Prop :=
  ∀ a b c d, hash a b = hash c d → a = c ∧ b = d.

(** ** Concrete inputs: the leaves of the source's demonstrations *)

(** The digest that encodes a one-digit integer: 63 zeros and the digit. *)
Definition smallLeaf (digit : string) : MerkleNodeValue :=
  "000000000000000000000000000000000000000000000000000000000000000" +:+ digit.

(** [leavesToSet] of the sparse-tree demonstration, height 3. *)
Definition leavesToSet : list MerkleNodeValue :=
  [smallLeaf "1"; smallLeaf "3"; smallLeaf "3"; smallLeaf "7";
   smallLeaf "4"; smallLeaf "2"; smallLeaf "0"; smallLeaf "6"].

(** The first two leaves of the append-only demonstration, height 50. *)
Definition firstAppends : list MerkleNodeValue :=
  [smallLeaf "8"; smallLeaf "7"].

(** ** The sparse tree without delta proofs

    The first version of [ZeroMerkleTree.setLeaf] updates the store and
    returns nothing; [forEach] runs it over a list of leaves. *)

Section RootOnly.

Context (hash : MerkleNodeValue -> MerkleNodeValue -> MerkleNodeValue).

(** The [for (level = height; level > 0; level--)] loop; the loop state
    is the store, [currentIndex] and [currentValue]. *)
Fixpoint setLeaf_rootOnly_loop (level : nat) (st : NodeStore) (currentIndex : Z)
    (currentValue : MerkleNodeValue) : NodeStore * Z * MerkleNodeValue :=
  match level with
  | O => (st, currentIndex, currentValue)
  | S level' =>
      let st := NodeStore_set st level currentIndex currentValue in
      if Z.rem currentIndex 2 =? 0 then
        let rightSibling := NodeStore_get st level (currentIndex + 1) in
        setLeaf_rootOnly_loop level' st (currentIndex / 2)
          (hash currentValue rightSibling)
      else
        let leftSibling := NodeStore_get st level (currentIndex - 1) in
        setLeaf_rootOnly_loop level' st (currentIndex / 2)
          (hash leftSibling currentValue)
  end.

Definition setLeaf_rootOnly (t : ZeroMerkleTree) (index : Z)
    (value : MerkleNodeValue) : ZeroMerkleTree :=
  let '(st, _, currentValue) :=
    setLeaf_rootOnly_loop (zmt_height t) (nodeStore t) index value in
  {| zmt_height := zmt_height t;
     nodeStore := NodeStore_set st 0 0 currentValue |}.

(** [leaves.forEach((leaf, index) => tree.setLeaf(index, leaf))], with
    [from] leaves already visited. *)
Fixpoint forEach_setLeaf (t : ZeroMerkleTree) (from : nat)
    (leaves : list MerkleNodeValue) : ZeroMerkleTree :=
  match leaves with
  | [] => t
  | leaf :: rest =>
      forEach_setLeaf (setLeaf_rootOnly t (Z.of_nat from) leaf) (S from) rest
  end.

End RootOnly.

(** ** Indices as JavaScript numbers

    An index is a binary64 number.  The operations above compute on it in
    [Z], which is what the source computes as long as every index it
    forms is below [2^53] in magnitude.  Past that, the only operations of
    [setLeaf] that are not exact on an integer-valued number are
    [currentIndex + 1] and [currentIndex - 1], whose results are rounded
    to the nearest number, ties to the even significand; halving and
    parity are exact.  [setLeaf_f64] is [setLeaf] with that rounding. *)

(** The integer-valued number nearest to the integer [x] (magnitudes
    below [2^1024]). *)
Definition double_round (x : Z) : Z :=
  let a := Z.abs x in
  if a <? 2 ^ 53 then x
  else
    let ulp := 2 ^ (Z.log2 a - 52) in
    let q := a / ulp in
    let r := a mod ulp in
    let q' :=
      if 2 * r <? ulp then q
      else if ulp <? 2 * r then q + 1
      else if Z.even q then q else q + 1 in
    Z.sgn x * (q' * ulp).

(** An index at which [index + 1] and [index - 1] are exact. *)
Definition safeIndex (index : Z) : Prop := 0 ≤ index < 2 ^ 53.

Section NumberOperations.

Context (hash : MerkleNodeValue -> MerkleNodeValue -> MerkleNodeValue).

Fixpoint setLeaf_loop_f64 (level : nat) (st : NodeStore) (currentIndex : Z)
    (currentValue : MerkleNodeValue) (siblings : list MerkleNodeValue)
    : NodeStore * Z * MerkleNodeValue * list MerkleNodeValue :=
  match level with
  | O => (st, currentIndex, currentValue, siblings)
  | S level' =>
      let st := NodeStore_set st level currentIndex currentValue in
      if Z.rem currentIndex 2 =? 0 then
        let rightSibling :=
          NodeStore_get st level (double_round (currentIndex + 1)) in
        setLeaf_loop_f64 level' st (currentIndex / 2)
          (hash currentValue rightSibling) (siblings ++ [rightSibling])
      else
        let leftSibling :=
          NodeStore_get st level (double_round (currentIndex - 1)) in
        setLeaf_loop_f64 level' st (currentIndex / 2)
          (hash leftSibling currentValue) (siblings ++ [leftSibling])
  end.

Definition setLeaf_f64 (t : ZeroMerkleTree) (index : Z) (value : MerkleNodeValue)
    : IDeltaMerkleProof * ZeroMerkleTree :=
  let oldRoot := NodeStore_get (nodeStore t) 0 0 in
  let oldValue := NodeStore_get (nodeStore t) (zmt_height t) index in
  let '(st, _, currentValue, siblings) :=
    setLeaf_loop_f64 (zmt_height t) (nodeStore t) index value [] in
  let st := NodeStore_set st 0 0 currentValue in
  ({| delta_index := index; delta_siblings := siblings;
      oldRoot := oldRoot; oldValue := oldValue;
      newRoot := currentValue; newValue := value |},
   {| zmt_height := zmt_height t; nodeStore := st |}).

Fixpoint setLeaves_f64 (t : ZeroMerkleTree) (calls : list (Z * MerkleNodeValue))
    : list IDeltaMerkleProof * ZeroMerkleTree :=
  match calls with
  | [] => ([], t)
  | (index, value) :: rest =>
      let '(p, t') := setLeaf_f64 t index value in
      let '(ps, t'') := setLeaves_f64 t' rest in
      (p :: ps, t'')
  end.

(** Two different pairs of arguments with the same hash. *)
Definition hashCollision : Prop :=
  ∃ a b c d, (a ≠ c ∨ b ≠ d) ∧ hash a b = hash c d.

End NumberOperations.

(** ** Further stand-ins for the hash primitive *)

(** The concatenation that the source hashes: the boundary between the
    two arguments is not part of it. *)
Definition concatHash (a b : MerkleNodeValue) : MerkleNodeValue := a +:+ b.

(** A short mixing function, for trees too tall for [pairHash]. *)
Fixpoint stringCode (s : string) (acc : Z) : Z :=
  match s with
  | EmptyString => acc
  | String c s' =>
      stringCode s' ((acc * 131 + Z.of_nat (nat_of_ascii c)) mod 1000003)
  end.

Definition mixHash (a b : MerkleNodeValue) : MerkleNodeValue :=
  pretty ((stringCode a 7 * 31 + stringCode b 11 * 17 + 5) mod 1000003).

(** ** Unfolding steps for the operations

    The sections below abbreviate the operations at the section's [hash];
    these tactics unfold the operations themselves. *)

Ltac simp_paths :=
  cbn [computeMerkleRootFromProof computeMerklePathFromProof_loop authPath].
Ltac simp_setLeaf_loop := cbn [setLeaf_loop].
Ltac simp_calls := cbn [setLeaves appendLeaves].
Ltac unfold_parentOnPath := unfold parentOnPath.
Ltac unfold_setLeaf := unfold setLeaf.
Ltac unfold_appendLeaf := unfold appendLeaf.
Ltac unfold_verifyMerkleProof := unfold verifyMerkleProof.
Ltac unfold_verifyDeltaMerkleProof := unfold verifyDeltaMerkleProof.
Ltac unfold_computeMerklePathFromProof := unfold computeMerklePathFromProof.
Ltac simp_rootOnly := cbn [setLeaf_rootOnly_loop forEach_setLeaf].
Ltac unfold_setLeaf_rootOnly := unfold setLeaf_rootOnly.
Ltac simp_setLeaf_loop_f64 := cbn [setLeaf_loop_f64].
Ltac simp_calls_f64 := cbn [setLeaves_f64].
Ltac unfold_setLeaf_f64 := unfold setLeaf_f64.
(** ** Dictionary keys

    [level + "_" + index] determines [level] and [index]: the decimal
    rendering of [level] has no underscore, so the first underscore of a
    key is the separator. *)

Lemma pretty_N_go_underscore_free (x : N) (s : string) :
  underscore_free s → underscore_free (pretty_N_go x s).
Proof.
  revert s. induction (N.lt_wf_0 x) as [x _ IH]; intros s Hs.
  destruct (decide (x = 0)%N) as [->|Hx]; [by rewrite pretty_N_go_0|].
  rewrite pretty_N_go_step by lia.
  apply IH; [apply N.div_lt; lia|].
  split; [|done]. unfold pretty_N_char. by repeat case_match.
Qed.

Lemma pretty_nat_underscore_free (n : nat) : underscore_free (pretty n).
Proof.
  unfold pretty, pretty_nat, pretty, pretty_N.
  case_decide; [by simpl|]. by apply pretty_N_go_underscore_free.
Qed.

Lemma underscore_split (s1 s2 t1 t2 : string) :
  underscore_free s1 → underscore_free s2 →
  s1 +:+ "_" +:+ t1 = s2 +:+ "_" +:+ t2 → s1 = s2 ∧ t1 = t2.
Proof.
  revert s2. induction s1 as [|c s1 IH]; intros [|d s2]; simpl;
    intros H1 H2 Heq; simplify_eq/=.
  - done.
  - by destruct H2.
  - by destruct H1.
  - destruct H1 as [_ H1], H2 as [_ H2].
    destruct (IH s2 H1 H2) as [-> ->]; done.
Qed.

Lemma nodeKey_inj (l1 l2 : nat) (i1 i2 : Z) :
  nodeKey l1 i1 = nodeKey l2 i2 → l1 = l2 ∧ i1 = i2.
Proof.
  unfold nodeKey. intros Heq.
  apply underscore_split in Heq as [Hl Hi];
    auto using pretty_nat_underscore_free.
  split; [by apply (inj pretty)|by apply (inj pretty)].
Qed.

Lemma nodeKey_ne (l1 l2 : nat) (i1 i2 : Z) :
  l1 ≠ l2 ∨ i1 ≠ i2 → nodeKey l1 i1 ≠ nodeKey l2 i2.
Proof. intros [Hne|Hne] Heq; apply nodeKey_inj in Heq as [??]; done. Qed.

(** ** Integer facts about parity, halving and powers of two *)

Ltac div_lia := Z.to_euclidean_division_equations; lia.

Lemma rem2_eqb_spec (x : Z) :
  (Z.rem x 2 =? 0) = true ∧ 2 * (x / 2) = x ∨
  (Z.rem x 2 =? 0) = false ∧ 2 * (x / 2) + 1 = x.
Proof.
  destruct (Z.eqb_spec (Z.rem x 2) 0) as [H|H]; [left|right]; split; try done.
  - apply Z.rem_mod_eq_0 in H; [|done]. div_lia.
  - assert (x mod 2 ≠ 0) by (intros Hm; apply H, Z.rem_mod_eq_0; done).
    div_lia.
Qed.

Lemma siblingIndex_even (x : Z) :
  (Z.rem x 2 =? 0) = true → siblingIndex x = x + 1.
Proof. unfold siblingIndex. by intros ->. Qed.

Lemma siblingIndex_odd (x : Z) :
  (Z.rem x 2 =? 0) = false → siblingIndex x = x - 1.
Proof. unfold siblingIndex. by intros ->. Qed.

Lemma siblingIndex_ne (x : Z) : siblingIndex x ≠ x.
Proof. unfold siblingIndex. case_match; lia. Qed.

Lemma pow2_pos (k : nat) : 0 < 2 ^ Z.of_nat k.
Proof. apply Z.pow_pos_nonneg; lia. Qed.

Lemma pow2_succ (k : nat) : 2 ^ Z.of_nat (S k) = 2 * 2 ^ Z.of_nat k.
Proof. rewrite Nat2Z.inj_succ, Z.pow_succ_r; lia. Qed.

Lemma div_pow2_succ_inner (i : Z) (k : nat) :
  i / 2 ^ Z.of_nat (S k) = (i / 2) / 2 ^ Z.of_nat k.
Proof.
  rewrite pow2_succ, Z.div_div; [done|lia|apply pow2_pos].
Qed.

Lemma div_pow2_succ_outer (i : Z) (k : nat) :
  i / 2 ^ Z.of_nat (S k) = (i / 2 ^ Z.of_nat k) / 2.
Proof.
  rewrite pow2_succ, (Z.mul_comm 2), Z.div_div; [done| |lia].
  pose proof (pow2_pos k). lia.
Qed.

Lemma div_pow2_range (i : Z) (k : nat) :
  i / 2 ^ Z.of_nat k = 0 ↔ 0 ≤ i < 2 ^ Z.of_nat k.
Proof.
  pose proof (pow2_pos k). rewrite Z.div_small_iff by lia. lia.
Qed.

(** Consecutive integers have equal or consecutive quotients. *)
Lemma div_consecutive (n d : Z) :
  0 < d → n / d = (n - 1) / d ∨ n / d = (n - 1) / d + 1.
Proof.
  intros Hd.
  assert ((n - 1) / d ≤ n / d) by (apply Z.div_le_mono; lia).
  assert (n / d ≤ (n - 1 + 1 * d) / d) by (apply Z.div_le_mono; lia).
  rewrite Z.div_add in * by lia. lia.
Qed.

(** A position with a larger quotient is a larger position. *)
Lemma div_lt_reflect (a b d : Z) : 0 < d → a / d < b / d → a < b.
Proof.
  intros Hd Hlt. destruct (decide (a < b)); [done|].
  assert (b / d ≤ a / d) by (apply Z.div_le_mono; lia). lia.
Qed.

(** ** Zero hashes and the reference tree *)

Section ReferenceFacts.

Context (hash : MerkleNodeValue -> MerkleNodeValue -> MerkleNodeValue).

Local Abbreviation zeroHash := (zeroHash hash).
Local Abbreviation nodeValue := (nodeValue hash).
Local Abbreviation authPath := (authPath hash).
Local Abbreviation computeZeroHashes := (computeZeroHashes hash).
Local Abbreviation computeMerkleRootFromProof := (computeMerkleRootFromProof hash).
Local Abbreviation computeMerklePathFromProof := (computeMerklePathFromProof hash).
Local Abbreviation parentOnPath := (parentOnPath hash).

Lemma computeZeroHashes_loop_spec (n k : nat) (acc : list MerkleNodeValue) :
  computeZeroHashes_loop hash n (zeroHash k) acc
  = acc ++ map zeroHash (seq (S k) n).
Proof.
  revert k acc. induction n as [|n IH]; intros k acc; simpl.
  - by rewrite app_nil_r.
  - rewrite (IH (S k)). by rewrite <- app_assoc.
Qed.

Lemma computeZeroHashes_eq (h : nat) :
  computeZeroHashes h = map zeroHash (seq 0 (S h)).
Proof.
  unfold computeZeroHashes.
  change zeroDigest with (zeroHash 0) at 1.
  by rewrite computeZeroHashes_loop_spec.
Qed.

Lemma computeZeroHashes_length (h : nat) :
  length (computeZeroHashes h) = S h.
Proof. by rewrite computeZeroHashes_eq, length_map, length_seq. Qed.

Lemma computeZeroHashes_lookup (h k : nat) :
  (k ≤ h)%nat → computeZeroHashes h !! k = Some (zeroHash k).
Proof.
  intros Hk. rewrite computeZeroHashes_eq, list_lookup_fmap.
  rewrite lookup_seq_lt by lia. done.
Qed.

Lemma arr_get_computeZeroHashes (h k : nat) :
  (k ≤ h)%nat → arr_get (computeZeroHashes h) k = zeroHash k.
Proof. intros Hk. unfold arr_get. by rewrite computeZeroHashes_lookup. Qed.

Lemma take_computeZeroHashes (h : nat) :
  take h (computeZeroHashes h) = map zeroHash (seq 0 h).
Proof.
  rewrite computeZeroHashes_eq, <- fmap_take. f_equal.
  rewrite take_seq. f_equal. lia.
Qed.

(** A node only depends on the leaves below it. *)
Lemma nodeValue_ext (f g : Z -> MerkleNodeValue) (k : nat) (i : Z) :
  (∀ j, j / 2 ^ Z.of_nat k = i → f j = g j) →
  nodeValue f k i = nodeValue g k i.
Proof.
  revert i. induction k as [|k IH]; intros i Hfg; simpl.
  - apply Hfg. by rewrite Z.div_1_r.
  - f_equal; apply IH; intros j Hj; apply Hfg;
      rewrite div_pow2_succ_outer, Hj; div_lia.
Qed.

Lemma nodeValue_leafUpdate_ne (f : Z -> MerkleNodeValue) (n : Z)
    (v : MerkleNodeValue) (k : nat) (i : Z) :
  n / 2 ^ Z.of_nat k ≠ i →
  nodeValue (leafUpdate f n v) k i = nodeValue f k i.
Proof.
  intros Hne. apply nodeValue_ext. intros j Hj. unfold leafUpdate.
  destruct (Z.eqb_spec j n) as [->|]; done.
Qed.

(** A subtree without leaves has the zero hash of its height. *)
Lemma nodeValue_empty (f : Z -> MerkleNodeValue) (k : nat) (i : Z) :
  (∀ j, j / 2 ^ Z.of_nat k = i → f j = zeroDigest) →
  nodeValue f k i = zeroHash k.
Proof.
  revert i. induction k as [|k IH]; intros i Hf; simpl.
  - apply Hf. by rewrite Z.div_1_r.
  - f_equal; apply IH; intros j Hj; apply Hf;
      rewrite div_pow2_succ_outer, Hj; div_lia.
Qed.

Lemma nodeValue_noLeaves (k : nat) (i : Z) : nodeValue noLeaves k i = zeroHash k.
Proof. by apply nodeValue_empty. Qed.

(** The parent of a node, computed from the node and its sibling. *)
Lemma parentOnPath_nodeValue (f : Z -> MerkleNodeValue) (t : nat) (i : Z) :
  parentOnPath i (nodeValue f t i) (nodeValue f t (siblingIndex i))
  = nodeValue f (S t) (i / 2).
Proof.
  unfold parentOnPath, siblingIndex. simpl.
  destruct (rem2_eqb_spec i) as [[-> H]|[-> H]].
  - rewrite H. by replace (i + 1) with (2 * (i / 2) + 1) by lia.
  - rewrite H. by replace (i - 1) with (2 * (i / 2)) by lia.
Qed.

(** Folding a node with the siblings of its path gives its ancestor. *)
Lemma root_from_authPath (f : Z -> MerkleNodeValue) (t k : nat) (i : Z) :
  computeMerkleRootFromProof (authPath f t k i) i (nodeValue f t i)
  = nodeValue f (t + k) (i / 2 ^ Z.of_nat k).
Proof.
  revert t i. induction k as [|k IH]; intros t i.
  - simpl. by rewrite Z.div_1_r, Nat.add_0_r.
  - simp_paths.
    rewrite parentOnPath_nodeValue, IH, div_pow2_succ_inner.
    f_equal. lia.
Qed.

Lemma authPath_length (f : Z -> MerkleNodeValue) (t k : nat) (i : Z) :
  length (authPath f t k i) = k.
Proof. revert t i. induction k; intros; simpl; auto. Qed.

Lemma authPath_lookup (f : Z -> MerkleNodeValue) (t k m : nat) (i : Z) :
  (m < k)%nat →
  authPath f t k i !! m
  = Some (nodeValue f (t + m) (siblingIndex (i / 2 ^ Z.of_nat m))).
Proof.
  revert t m i. induction k as [|k IH]; intros t m i Hm; [lia|].
  destruct m as [|m]; simpl.
  - by rewrite Z.div_1_r, Nat.add_0_r.
  - rewrite IH by lia. change (Z.pos (Pos.of_succ_nat m)) with (Z.of_nat (S m)).
    rewrite div_pow2_succ_inner. do 2 f_equal. lia.
Qed.

Lemma authPath_take (f : Z -> MerkleNodeValue) (t k m : nat) (i : Z) :
  (m ≤ k)%nat → take m (authPath f t k i) = authPath f t m i.
Proof.
  revert t m i. induction k as [|k IH]; intros t m i Hm.
  - by replace m with 0%nat by lia.
  - destruct m as [|m]; simpl; [done|]. rewrite IH by lia. done.
Qed.

(** The siblings of a path do not depend on leaves whose path is this
    one. *)
Lemma authPath_ext (f g : Z -> MerkleNodeValue) (t k : nat) (i : Z) :
  (∀ j, j / 2 ^ Z.of_nat t ≠ i → f j = g j) →
  authPath f t k i = authPath g t k i.
Proof.
  revert t i. induction k as [|k IH]; intros t i Hfg; simpl; [done|].
  f_equal.
  - apply nodeValue_ext. intros j Hj. apply Hfg. rewrite Hj.
    apply siblingIndex_ne.
  - apply IH. intros j Hj. apply Hfg. intros Hi. apply Hj.
    by rewrite div_pow2_succ_outer, Hi.
Qed.

Lemma authPath_leafUpdate (f : Z -> MerkleNodeValue) (n : Z)
    (v : MerkleNodeValue) (k : nat) :
  authPath (leafUpdate f n v) 0 k n = authPath f 0 k n.
Proof.
  apply authPath_ext. intros j Hj. unfold leafUpdate.
  destruct (Z.eqb_spec j n) as [->|]; [|done].
  by rewrite Z.div_1_r in Hj.
Qed.

Lemma leafUpdate_eq (f : Z -> MerkleNodeValue) (n : Z) (v : MerkleNodeValue) :
  leafUpdate f n v n = v.
Proof. unfold leafUpdate. by rewrite Z.eqb_refl. Qed.

(** The path nodes that [computeMerklePathFromProof] rebuilds. *)
Lemma computeMerklePathFromProof_loop_spec (f : Z -> MerkleNodeValue)
    (t k : nat) (i : Z) (acc : list MerkleNodeValue) :
  computeMerklePathFromProof_loop hash (authPath f t k i) i (nodeValue f t i) acc
  = acc ++ map (λ m, nodeValue f (t + S m) (i / 2 ^ Z.of_nat (S m))) (seq 0 k).
Proof.
  revert t i acc. induction k as [|k IH]; intros t i acc.
  - simpl. by rewrite app_nil_r.
  - simp_paths.
    rewrite parentOnPath_nodeValue, IH, <- app_assoc. f_equal.
    cbn [seq map app]. f_equal.
    + replace (t + 1)%nat with (S t) by lia. done.
    + rewrite <- seq_shift, map_map. apply map_ext. intros m.
      rewrite (div_pow2_succ_inner i (S m)). f_equal. lia.
Qed.

Lemma computeMerklePathFromProof_lookup (f : Z -> MerkleNodeValue)
    (k m : nat) (i : Z) :
  (m ≤ k)%nat →
  arr_get (computeMerklePathFromProof (authPath f 0 k i) i (f i)) m
  = nodeValue f m (i / 2 ^ Z.of_nat m).
Proof.
  intros Hm. unfold computeMerklePathFromProof, arr_get.
  change (f i) with (nodeValue f 0 i).
  rewrite computeMerklePathFromProof_loop_spec.
  destruct m as [|m]; simpl.
  - by rewrite Z.div_1_r.
  - rewrite list_lookup_fmap, lookup_seq_lt by lia. done.
Qed.

End ReferenceFacts.

(** ** The node store and the loop of [setLeaf] *)

Section StoreFacts.

Context (hash : MerkleNodeValue -> MerkleNodeValue -> MerkleNodeValue).

Local Abbreviation setLeaf_loop := (setLeaf_loop hash).
Local Abbreviation setLeaf := (setLeaf hash).
Local Abbreviation computeMerkleRootFromProof := (computeMerkleRootFromProof hash).
Local Abbreviation parentOnPath := (parentOnPath hash).

Lemma arr_get_Z_sub (a : list MerkleNodeValue) (h l : nat) :
  (l ≤ h)%nat → arr_get_Z a (Z.of_nat h - Z.of_nat l) = arr_get a (h - l).
Proof.
  intros Hl. unfold arr_get_Z.
  destruct (Z.ltb_spec (Z.of_nat h - Z.of_nat l) 0); [lia|].
  f_equal. lia.
Qed.

Lemma NodeStore_get_lookup (st : NodeStore) (l : nat) (i : Z) :
  NodeStore_get st l i
  = match nodes st !! nodeKey l i with
    | Some v => v
    | None => arr_get_Z (store_zeroHashes st)
                (Z.of_nat (store_height st) - Z.of_nat l)
    end.
Proof.
  unfold NodeStore_get, NodeStore_contains.
  destruct (nodes st !! nodeKey l i) as [v|] eqn:E.
  - rewrite bool_decide_eq_true_2 by eauto. done.
  - rewrite bool_decide_eq_false_2; [done|]. by intros [? ?].
Qed.

(** Two stores that agree on a key, the height and the zero hashes read
    the same node. *)
Lemma NodeStore_get_agree (st st' : NodeStore) (l : nat) (i : Z) :
  nodes st' !! nodeKey l i = nodes st !! nodeKey l i →
  store_height st' = store_height st →
  store_zeroHashes st' = store_zeroHashes st →
  NodeStore_get st' l i = NodeStore_get st l i.
Proof. intros H1 H2 H3. by rewrite !NodeStore_get_lookup, H1, H2, H3. Qed.

Lemma NodeStore_get_set_eq (st : NodeStore) (l : nat) (i : Z)
    (v : MerkleNodeValue) :
  NodeStore_get (NodeStore_set st l i v) l i = v.
Proof. rewrite NodeStore_get_lookup. simpl. by rewrite lookup_insert_eq. Qed.

Lemma NodeStore_get_set_ne (st : NodeStore) (l l' : nat) (i i' : Z)
    (v : MerkleNodeValue) :
  l ≠ l' ∨ i ≠ i' →
  NodeStore_get (NodeStore_set st l i v) l' i' = NodeStore_get st l' i'.
Proof.
  intros Hne. apply NodeStore_get_agree; [|done..]. simpl.
  apply lookup_insert_ne. by apply nodeKey_ne.
Qed.

Lemma storeSiblings_length (st : NodeStore) (L : nat) (ci : Z) :
  length (storeSiblings st L ci) = L.
Proof. revert ci. induction L; intros; simpl; auto. Qed.

(** The siblings of a path only depend on the store at the sibling
    positions. *)
Lemma storeSiblings_agree (st st' : NodeStore) (L : nat) (ci : Z) :
  (∀ l, (1 ≤ l ≤ L)%nat →
     NodeStore_get st' l (siblingIndex (ci / 2 ^ Z.of_nat (L - l)))
     = NodeStore_get st l (siblingIndex (ci / 2 ^ Z.of_nat (L - l)))) →
  storeSiblings st' L ci = storeSiblings st L ci.
Proof.
  revert ci. induction L as [|L IH]; intros ci Hag; simpl; [done|].
  f_equal.
  - specialize (Hag (S L) ltac:(lia)).
    by rewrite Nat.sub_diag, Z.div_1_r in Hag.
  - apply IH. intros l Hl. specialize (Hag l ltac:(lia)).
    replace (S L - l)%nat with (S (L - l)) in Hag by lia.
    by rewrite div_pow2_succ_inner in Hag.
Qed.

Lemma storeSiblings_lookup (st : NodeStore) (L k : nat) (ci : Z) :
  (k < L)%nat →
  storeSiblings st L ci !! k
  = Some (NodeStore_get st (L - k) (siblingIndex (ci / 2 ^ Z.of_nat k))).
Proof.
  revert k ci. induction L as [|L IH]; intros k ci Hk; [lia|].
  destruct k as [|k].
  - simpl. by rewrite Z.div_1_r.
  - cbn [storeSiblings lookup list_lookup]. rewrite IH by lia.
    rewrite div_pow2_succ_inner. do 2 f_equal.
Qed.

(** One pass of the loop, with the two branches read as one. *)
Lemma setLeaf_loop_step (L : nat) (st : NodeStore) (ci : Z)
    (cv : MerkleNodeValue) (sibs : list MerkleNodeValue) :
  setLeaf_loop (S L) st ci cv sibs
  = let st1 := NodeStore_set st (S L) ci cv in
    let s := NodeStore_get st (S L) (siblingIndex ci) in
    setLeaf_loop L st1 (ci / 2) (parentOnPath ci cv s) (sibs ++ [s]).
Proof.
  simp_setLeaf_loop. cbv zeta.
  unfold_parentOnPath. unfold siblingIndex.
  destruct (Z.rem ci 2 =? 0);
    rewrite NodeStore_get_set_ne by (right; lia); done.
Qed.

(** What the loop returns besides the store. *)
Lemma setLeaf_loop_results (L : nat) (st : NodeStore) (ci : Z)
    (cv : MerkleNodeValue) (sibs : list MerkleNodeValue) :
  ∃ st', setLeaf_loop L st ci cv sibs
    = (st', ci / 2 ^ Z.of_nat L,
       computeMerkleRootFromProof (storeSiblings st L ci) ci cv,
       sibs ++ storeSiblings st L ci).
Proof.
  revert st ci cv sibs. induction L as [|L IH]; intros st ci cv sibs.
  - exists st. simpl. by rewrite Z.div_1_r, app_nil_r.
  - rewrite setLeaf_loop_step. cbv zeta.
    destruct (IH (NodeStore_set st (S L) ci cv) (ci / 2)
                (parentOnPath ci cv (NodeStore_get st (S L) (siblingIndex ci)))
                (sibs ++ [NodeStore_get st (S L) (siblingIndex ci)]))
      as [st' ->].
    exists st'.
    rewrite (storeSiblings_agree st (NodeStore_set st (S L) ci cv))
      by (intros; apply NodeStore_get_set_ne; lia).
    rewrite div_pow2_succ_inner, <- app_assoc. done.
Qed.

(** The store after the loop: its height and zero hashes are those of
    the store before. *)
Lemma setLeaf_loop_static (L : nat) (st : NodeStore) (ci : Z)
    (cv : MerkleNodeValue) (sibs : list MerkleNodeValue) :
  store_height (setLeaf_loop L st ci cv sibs).1.1.1 = store_height st ∧
  store_zeroHashes (setLeaf_loop L st ci cv sibs).1.1.1 = store_zeroHashes st.
Proof.
  revert st ci cv sibs. induction L as [|L IH]; intros st ci cv sibs.
  - done.
  - rewrite setLeaf_loop_step. cbv zeta.
    destruct (IH (NodeStore_set st (S L) ci cv) (ci / 2)
                (parentOnPath ci cv (NodeStore_get st (S L) (siblingIndex ci)))
                (sibs ++ [NodeStore_get st (S L) (siblingIndex ci)]))
      as [-> ->].
    done.
Qed.

(** Keys off the path keep their entry, present or absent. *)
Lemma setLeaf_loop_frame (L : nat) (st : NodeStore) (ci : Z)
    (cv : MerkleNodeValue) (sibs : list MerkleNodeValue) (key : string) :
  (∀ l, (1 ≤ l ≤ L)%nat → key ≠ nodeKey l (ci / 2 ^ Z.of_nat (L - l))) →
  nodes (setLeaf_loop L st ci cv sibs).1.1.1 !! key = nodes st !! key.
Proof.
  revert st ci cv sibs. induction L as [|L IH]; intros st ci cv sibs Hkey.
  - done.
  - rewrite setLeaf_loop_step. cbv zeta. rewrite IH.
    + simpl. apply lookup_insert_ne. intros Heq.
      apply (Hkey (S L)); [lia|].
      by rewrite Nat.sub_diag, Z.div_1_r.
    + intros l Hl. specialize (Hkey l ltac:(lia)).
      replace (S L - l)%nat with (S (L - l)) in Hkey by lia.
      by rewrite div_pow2_succ_inner in Hkey.
Qed.

(** Keys on the path hold the path node computed from the siblings
    below them. *)
Lemma setLeaf_loop_path (L : nat) (st : NodeStore) (ci : Z)
    (cv : MerkleNodeValue) (sibs : list MerkleNodeValue) (l : nat) :
  (1 ≤ l ≤ L)%nat →
  nodes (setLeaf_loop L st ci cv sibs).1.1.1
    !! nodeKey l (ci / 2 ^ Z.of_nat (L - l))
  = Some (computeMerkleRootFromProof
            (take (L - l) (storeSiblings st L ci)) ci cv).
Proof.
  revert st ci cv sibs. induction L as [|L IH]; intros st ci cv sibs Hl.
  - lia.
  - rewrite setLeaf_loop_step. cbv zeta.
    destruct (decide (l = S L)) as [->|Hne].
    + rewrite setLeaf_loop_frame.
      * rewrite Nat.sub_diag, Z.div_1_r. simpl. by rewrite lookup_insert_eq.
      * intros l' Hl'. apply nodeKey_ne. left. lia.
    + replace (S L - l)%nat with (S (L - l)) by lia.
      rewrite div_pow2_succ_inner, IH by lia.
      rewrite (storeSiblings_agree st (NodeStore_set st (S L) ci cv))
        by (intros; apply NodeStore_get_set_ne; lia).
      done.
Qed.

(** [setLeaf] in closed form. *)
Lemma setLeaf_unfold (t : ZeroMerkleTree) (index : Z) (value : MerkleNodeValue) :
  let sibs := storeSiblings (nodeStore t) (zmt_height t) index in
  let newRoot := computeMerkleRootFromProof sibs index value in
  setLeaf t index value
  = ({| delta_index := index; delta_siblings := sibs;
        oldRoot := NodeStore_get (nodeStore t) 0 0;
        oldValue := NodeStore_get (nodeStore t) (zmt_height t) index;
        newRoot := newRoot; newValue := value |},
     {| zmt_height := zmt_height t;
        nodeStore :=
          NodeStore_set
            (setLeaf_loop (zmt_height t) (nodeStore t) index value []).1.1.1
            0 0 newRoot |}).
Proof.
  cbv zeta. unfold_setLeaf.
  destruct (setLeaf_loop_results (zmt_height t) (nodeStore t) index value [])
    as [st' ->].
  done.
Qed.

End StoreFacts.

(** ** Proof verification *)

Section VerifierFacts.

Context (hash : MerkleNodeValue -> MerkleNodeValue -> MerkleNodeValue).

Local Abbreviation computeMerkleRootFromProof := (computeMerkleRootFromProof hash).
Local Abbreviation verifyMerkleProof := (verifyMerkleProof hash).
Local Abbreviation verifyDeltaMerkleProof := (verifyDeltaMerkleProof hash).

Lemma verifyMerkleProof_true (p : IMerkleProof) :
  verifyMerkleProof p = true
  ↔ root p = computeMerkleRootFromProof (siblings p) (index p) (value p).
Proof. unfold_verifyMerkleProof. apply String.eqb_eq. Qed.

Lemma verifyDeltaMerkleProof_true (d : IDeltaMerkleProof) :
  verifyDeltaMerkleProof d = true
  ↔ oldRoot d
      = computeMerkleRootFromProof (delta_siblings d) (delta_index d) (oldValue d)
    ∧ newRoot d
      = computeMerkleRootFromProof (delta_siblings d) (delta_index d) (newValue d).
Proof.
  unfold_verifyDeltaMerkleProof.
  rewrite andb_true_iff, !verifyMerkleProof_true. done.
Qed.

(** C6.  [verifyDeltaMerkleProof d] is [true] exactly when the old proof
    [{oldRoot, siblings, index, oldValue}] and the new proof
    [{newRoot, siblings, index, newValue}] both pass [verifyMerkleProof],
    that is when each root is [computeMerkleRootFromProof] of the shared
    siblings and index with the respective value; in every other case the
    call returns [false], a value. *)
Theorem verifyDeltaMerkleProof_iff_both (d : IDeltaMerkleProof) :
  let oldProof :=
    {| root := oldRoot d; siblings := delta_siblings d;
       index := delta_index d; value := oldValue d |} in
  let newProof :=
    {| root := newRoot d; siblings := delta_siblings d;
       index := delta_index d; value := newValue d |} in
  (verifyDeltaMerkleProof d = true
   ↔ verifyMerkleProof oldProof = true ∧ verifyMerkleProof newProof = true)
  ∧ (verifyMerkleProof oldProof = true
     ↔ oldRoot d
       = computeMerkleRootFromProof (delta_siblings d) (delta_index d)
           (oldValue d))
  ∧ (verifyMerkleProof newProof = true
     ↔ newRoot d
       = computeMerkleRootFromProof (delta_siblings d) (delta_index d)
           (newValue d))
  ∧ (verifyDeltaMerkleProof d = false
     ↔ ¬ (verifyMerkleProof oldProof = true
          ∧ verifyMerkleProof newProof = true)).
Proof.
  cbv zeta. rewrite !verifyMerkleProof_true. simpl.
  split; [apply verifyDeltaMerkleProof_true|].
  split; [done|]. split; [done|].
  rewrite <- verifyDeltaMerkleProof_true.
  destruct (verifyDeltaMerkleProof d); split; try done.
Qed.

End VerifierFacts.

(** ** The sparse tree *)

Section ZeroMerkleTreeFacts.

Context (hash : MerkleNodeValue -> MerkleNodeValue -> MerkleNodeValue).

Local Abbreviation setLeaf_loop := (setLeaf_loop hash).
Local Abbreviation setLeaf := (setLeaf hash).
Local Abbreviation setLeaves := (setLeaves hash).
Local Abbreviation computeZeroHashes := (computeZeroHashes hash).
Local Abbreviation computeMerkleRootFromProof := (computeMerkleRootFromProof hash).
Local Abbreviation verifyDeltaMerkleProof := (verifyDeltaMerkleProof hash).
Local Abbreviation ZeroMerkleTree_new := (ZeroMerkleTree_new hash).
Local Abbreviation represents := (represents hash).
Local Abbreviation treeRepresents := (treeRepresents hash).
Local Abbreviation nodeValue := (nodeValue hash).
Local Abbreviation authPath := (authPath hash).
Local Abbreviation zeroHash := (zeroHash hash).

Lemma represents_new (h : nat) :
  treeRepresents h (ZeroMerkleTree_new h) noLeaves.
Proof.
  split; [done|]. split; [done|]. split; [done|].
  intros l i Hl. rewrite NodeStore_get_lookup. simpl.
  rewrite lookup_empty, arr_get_Z_sub, arr_get_computeZeroHashes by lia.
  by rewrite nodeValue_noLeaves.
Qed.

(** C4.  [computeZeroHashes h] has [h + 1] entries; entry 0 is the
    all-zero digest and entry [i] is the hash of entry [i - 1] with
    itself; entry [i] is the root a fresh [ZeroMerkleTree(i)] reports,
    which is the root of the full tree of height [i] over empty leaves
    and is [computeZeroHashes(i)[i]]. *)
Theorem computeZeroHashes_table (h : nat) :
  length (computeZeroHashes h) = S h
  ∧ computeZeroHashes h !! 0%nat = Some zeroDigest
  ∧ (∀ i, (1 ≤ i ≤ h)%nat →
       ∃ prev, computeZeroHashes h !! (i - 1)%nat = Some prev
               ∧ computeZeroHashes h !! i = Some (hash prev prev))
  ∧ (∀ i, (i ≤ h)%nat →
       computeZeroHashes h !! i = Some (getRoot (ZeroMerkleTree_new i))
       ∧ getRoot (ZeroMerkleTree_new i) = nodeValue noLeaves i 0
       ∧ getRoot (ZeroMerkleTree_new i) = arr_get (computeZeroHashes i) i).
Proof.
  split; [apply computeZeroHashes_length|].
  split; [by apply computeZeroHashes_lookup; lia|].
  split.
  - intros i Hi. exists (zeroHash (i - 1)).
    rewrite !computeZeroHashes_lookup by lia.
    split; [done|]. destruct i as [|i]; [lia|].
    simpl. by rewrite Nat.sub_0_r.
  - intros i Hi. rewrite computeZeroHashes_lookup by lia.
    assert (getRoot (ZeroMerkleTree_new i) = zeroHash i) as ->.
    { unfold getRoot. rewrite NodeStore_get_lookup. simpl.
      rewrite lookup_empty, arr_get_Z_sub, Nat.sub_0_r by lia.
      by apply arr_get_computeZeroHashes. }
    split; [done|]. split; [by rewrite nodeValue_noLeaves|].
    symmetry. by apply arr_get_computeZeroHashes.
Qed.

Lemma storeSiblings_represents (h : nat) (st : NodeStore)
    (f : Z -> MerkleNodeValue) (L : nat) (ci : Z) :
  represents h st f → (L ≤ h)%nat →
  storeSiblings st L ci = authPath f (h - L) L ci.
Proof.
  intros (_ & _ & Hget). revert ci.
  induction L as [|L IH]; intros ci HL; simpl; [done|].
  rewrite Hget, IH by lia.
  by replace (S (h - S L)) with (h - L)%nat by lia.
Qed.

(** The fold of [setLeaf] over the siblings of the reference tree. *)
Lemma fold_authPath_leafUpdate (f : Z -> MerkleNodeValue) (index : Z)
    (v : MerkleNodeValue) (k : nat) :
  computeMerkleRootFromProof (authPath f 0 k index) index v
  = nodeValue (leafUpdate f index v) k (index / 2 ^ Z.of_nat k).
Proof.
  rewrite <- (authPath_leafUpdate hash f index v k).
  rewrite <- (leafUpdate_eq f index v) at 2.
  change (leafUpdate f index v index)
    with (nodeValue (leafUpdate f index v) 0 index).
  by rewrite root_from_authPath.
Qed.

(** [setLeaf] at an index in range keeps the store a representation, of
    the updated leaf assignment. *)
Lemma setLeaf_represents (h : nat) (t : ZeroMerkleTree)
    (f : Z -> MerkleNodeValue) (index : Z) (v : MerkleNodeValue) :
  treeRepresents h t f → 0 ≤ index < 2 ^ Z.of_nat h →
  treeRepresents h (setLeaf t index v).2 (leafUpdate f index v).
Proof.
  intros [Hh Hrep] Hin. rewrite setLeaf_unfold. cbv zeta.
  pose proof (setLeaf_loop_static hash (zmt_height t) (nodeStore t) index v [])
    as [Hsh Hsz].
  pose proof Hrep as (Hheight & Hzero & Hget).
  rewrite Hh in *.
  rewrite (storeSiblings_represents h _ f h index Hrep) by lia.
  rewrite Nat.sub_diag.
  split; [done|]. split; [simpl; congruence|]. split; [simpl; congruence|].
  intros l i Hl. cbn [snd nodeStore].
  destruct (decide (l = 0%nat)) as [->|Hl0].
  - destruct (decide (i = 0)) as [->|Hi0].
    + rewrite NodeStore_get_set_eq, fold_authPath_leafUpdate.
      rewrite Nat.sub_0_r. f_equal. by apply div_pow2_range.
    + rewrite NodeStore_get_set_ne by (right; congruence).
      rewrite (NodeStore_get_agree (nodeStore t)); [|
        apply setLeaf_loop_frame; intros l' Hl'; apply nodeKey_ne; left; lia
        |done..].
      rewrite Hget by lia. rewrite nodeValue_leafUpdate_ne; [done|].
      rewrite Nat.sub_0_r.
      replace (index / 2 ^ Z.of_nat h) with 0
        by (symmetry; by apply div_pow2_range).
      congruence.
  - rewrite NodeStore_get_set_ne by (left; lia).
    destruct (decide (i = index / 2 ^ Z.of_nat (h - l))) as [->|Hi].
    + rewrite NodeStore_get_lookup, setLeaf_loop_path by lia.
      rewrite (storeSiblings_represents h _ f h index Hrep) by lia.
      rewrite Nat.sub_diag, authPath_take by lia.
      apply fold_authPath_leafUpdate.
    + rewrite (NodeStore_get_agree (nodeStore t)); [| |done..].
      * rewrite Hget by lia.
        rewrite nodeValue_leafUpdate_ne; [done|congruence].
      * apply setLeaf_loop_frame. intros l' Hl'. apply nodeKey_ne.
        destruct (decide (l = l')) as [<-|]; [right; congruence|by left].
Qed.

(** The delta proof of [setLeaf] on a representing store, at an index in
    range, verifies. *)
Lemma setLeaf_verifies (h : nat) (t : ZeroMerkleTree)
    (f : Z -> MerkleNodeValue) (index : Z) (v : MerkleNodeValue) :
  treeRepresents h t f → 0 ≤ index < 2 ^ Z.of_nat h →
  verifyDeltaMerkleProof (setLeaf t index v).1 = true.
Proof.
  intros [Hh Hrep] Hin. rewrite setLeaf_unfold. cbv zeta.
  apply verifyDeltaMerkleProof_true. simpl. split; [|done].
  pose proof Hrep as (_ & _ & Hget). rewrite Hh.
  rewrite (storeSiblings_represents h _ f h index Hrep) by lia.
  rewrite !Hget, !Nat.sub_diag, Nat.sub_0_r by lia.
  change (nodeValue f 0 index) with (f index).
  change (f index) with (nodeValue f 0 index).
  rewrite root_from_authPath. simpl. f_equal.
  symmetry. by apply div_pow2_range.
Qed.

Lemma setLeaf_getRoot (t : ZeroMerkleTree) (index : Z) (v : MerkleNodeValue) :
  getRoot (setLeaf t index v).2 = newRoot (setLeaf t index v).1.
Proof.
  rewrite setLeaf_unfold. cbv zeta. unfold getRoot. simpl.
  apply NodeStore_get_set_eq.
Qed.

Lemma setLeaf_oldRoot (t : ZeroMerkleTree) (index : Z) (v : MerkleNodeValue) :
  oldRoot (setLeaf t index v).1 = getRoot t.
Proof. by rewrite setLeaf_unfold. Qed.

Lemma setLeaves_cons (t : ZeroMerkleTree) (index : Z) (v : MerkleNodeValue)
    (rest : list (Z * MerkleNodeValue)) :
  setLeaves t ((index, v) :: rest)
  = ((setLeaf t index v).1 :: (setLeaves (setLeaf t index v).2 rest).1,
     (setLeaves (setLeaf t index v).2 rest).2).
Proof.
  simp_calls. destruct (setLeaf t index v) as [p t'].
  cbn [fst snd]. by destruct (setLeaves t' rest).
Qed.

(** Old roots chain: the first proof starts from the root of the tree,
    each later proof from the new root of the proof before it. *)
Lemma setLeaves_chain (t : ZeroMerkleTree) (calls : list (Z * MerkleNodeValue)) :
  (∀ p, (setLeaves t calls).1 !! 0%nat = Some p → oldRoot p = getRoot t)
  ∧ (∀ i p q, (setLeaves t calls).1 !! i = Some p →
       (setLeaves t calls).1 !! S i = Some q → oldRoot q = newRoot p).
Proof.
  revert t. induction calls as [|[index v] rest IH]; intros t.
  - split; intros; simplify_eq/=.
  - rewrite setLeaves_cons. simpl.
    destruct (IH (setLeaf t index v).2) as [IH0 IHS].
    split.
    + intros p [= <-]. apply setLeaf_oldRoot.
    + intros [|i] p q Hp Hq; simpl in *.
      * injection Hp as <-. rewrite (IH0 q Hq). apply setLeaf_getRoot.
      * by apply (IHS i).
Qed.

Lemma setLeaves_verify (h : nat) (t : ZeroMerkleTree)
    (f : Z -> MerkleNodeValue) (calls : list (Z * MerkleNodeValue)) :
  treeRepresents h t f →
  Forall (λ c, 0 ≤ c.1 < 2 ^ Z.of_nat h) calls →
  Forall (λ p, verifyDeltaMerkleProof p = true) (setLeaves t calls).1.
Proof.
  intros Ht Hcalls. revert t f Ht.
  induction Hcalls as [|[index v] rest Hin _ IH]; intros t f Ht.
  - constructor.
  - rewrite setLeaves_cons. simpl. constructor.
    + by eapply setLeaf_verifies.
    + eapply IH. by apply setLeaf_represents.
Qed.

Lemma setLeaves_length (t : ZeroMerkleTree)
    (calls : list (Z * MerkleNodeValue)) :
  length (setLeaves t calls).1 = length calls.
Proof.
  revert t. induction calls as [|[index v] rest IH]; intros t; [done|].
  rewrite setLeaves_cons. simpl. by rewrite IH.
Qed.

End ZeroMerkleTreeFacts.

(** ** Frame properties of [setLeaf] *)

Section SetLeafFrame.

Context (hash : MerkleNodeValue -> MerkleNodeValue -> MerkleNodeValue).

Local Abbreviation setLeaf_loop := (setLeaf_loop hash).
Local Abbreviation setLeaf := (setLeaf hash).
Local Abbreviation computeMerkleRootFromProof := (computeMerkleRootFromProof hash).

Lemma setLeaf_loop_keeps (L : nat) (st : NodeStore) (ci : Z)
    (cv : MerkleNodeValue) (sibs : list MerkleNodeValue) (key : string) :
  is_Some (nodes st !! key) →
  is_Some (nodes (setLeaf_loop L st ci cv sibs).1.1.1 !! key).
Proof.
  revert st ci cv sibs. induction L as [|L IH]; intros st ci cv sibs Hkey.
  - done.
  - rewrite setLeaf_loop_step. cbv zeta. apply IH. simpl.
    apply lookup_insert_is_Some.
    destruct (decide (nodeKey (S L) ci = key)); auto.
Qed.

Lemma setLeaf_height (t : ZeroMerkleTree) (index : Z) (v : MerkleNodeValue) :
  zmt_height (setLeaf t index v).2 = zmt_height t.
Proof. by rewrite setLeaf_unfold. Qed.

(** Keys other than the root key and the keys of the loop keep their
    entry. *)
Lemma setLeaf_lookup_off_path (t : ZeroMerkleTree) (index : Z)
    (v : MerkleNodeValue) (key : string) :
  key ≠ nodeKey 0 0 →
  (∀ l, (1 ≤ l ≤ zmt_height t)%nat →
     key ≠ nodeKey l (index / 2 ^ Z.of_nat (zmt_height t - l))) →
  nodes (nodeStore (setLeaf t index v).2) !! key = nodes (nodeStore t) !! key.
Proof.
  intros Hroot Hpath. rewrite setLeaf_unfold. cbv zeta. simpl.
  rewrite lookup_insert_ne by done. by apply setLeaf_loop_frame.
Qed.

Lemma setLeaf_static (t : ZeroMerkleTree) (index : Z) (v : MerkleNodeValue) :
  store_height (nodeStore (setLeaf t index v).2) = store_height (nodeStore t)
  ∧ store_zeroHashes (nodeStore (setLeaf t index v).2)
    = store_zeroHashes (nodeStore t).
Proof.
  rewrite setLeaf_unfold. cbv zeta. simpl. apply setLeaf_loop_static.
Qed.

(** The sibling positions of the path read the same before and after. *)
Lemma setLeaf_sibling_reads (t : ZeroMerkleTree) (index : Z)
    (v : MerkleNodeValue) (l : nat) :
  (1 ≤ l ≤ zmt_height t)%nat →
  NodeStore_get (nodeStore (setLeaf t index v).2) l
    (siblingIndex (index / 2 ^ Z.of_nat (zmt_height t - l)))
  = NodeStore_get (nodeStore t) l
      (siblingIndex (index / 2 ^ Z.of_nat (zmt_height t - l))).
Proof.
  intros Hl. destruct (setLeaf_static t index v) as [Hh Hz].
  apply NodeStore_get_agree; [|done..].
  apply setLeaf_lookup_off_path.
  - apply nodeKey_ne. left. lia.
  - intros l' Hl'. apply nodeKey_ne.
    destruct (decide (l = l')) as [<-|]; [right|by left].
    apply siblingIndex_ne.
Qed.

(** The leaf written by [setLeaf] reads back. *)
Lemma setLeaf_leaf_read (t : ZeroMerkleTree) (index : Z) (v : MerkleNodeValue) :
  0 ≤ index < 2 ^ Z.of_nat (zmt_height t) →
  NodeStore_get (nodeStore (setLeaf t index v).2) (zmt_height t) index = v.
Proof.
  intros Hin. rewrite setLeaf_unfold. cbv zeta. cbn [snd nodeStore].
  destruct (zmt_height t) as [|h'] eqn:Hh.
  - change (2 ^ Z.of_nat 0) with 1 in Hin.
    replace index with 0 by lia. by rewrite NodeStore_get_set_eq.
  - rewrite NodeStore_get_set_ne by (left; lia).
    pose proof (setLeaf_loop_path hash (S h') (nodeStore t) index v []
                  (S h') ltac:(lia)) as Hp.
    rewrite Nat.sub_diag, Z.div_1_r in Hp.
    by rewrite NodeStore_get_lookup, Hp.
Qed.

(** C5.  Calling [setLeaf(index, v)] twice in immediate succession, with
    [index] in [[0, 2^h)], on any [ZeroMerkleTree(h)]: the second delta
    proof has [oldRoot = newRoot] and [oldValue = newValue = v]. *)
Theorem setLeaf_twice_same (t : ZeroMerkleTree) (index : Z)
    (v : MerkleNodeValue) :
  0 ≤ index < 2 ^ Z.of_nat (zmt_height t) →
  let t1 := (setLeaf t index v).2 in
  let second := (setLeaf t1 index v).1 in
  oldRoot second = newRoot second
  ∧ oldValue second = v
  ∧ newValue second = v.
Proof.
  intros Hin. cbv zeta.
  rewrite (setLeaf_unfold hash (setLeaf t index v).2). cbv zeta.
  cbn [fst oldRoot newRoot oldValue newValue].
  rewrite setLeaf_height.
  split; [|split; [by apply setLeaf_leaf_read|done]].
  rewrite (storeSiblings_agree (nodeStore t))
    by (intros l Hl; by apply setLeaf_sibling_reads).
  pose proof (setLeaf_getRoot hash t index v) as Hroot.
  unfold getRoot in Hroot. rewrite Hroot.
  by rewrite setLeaf_unfold.
Qed.

(** In exact integer arithmetic, [setLeaf] at an index in range changes
    only the entries on the path of the leaf, which it all writes; the
    siblings it returns are the entries at the sibling positions, before
    and after the call; no key is removed. *)
Lemma setLeaf_frame_exact (t : ZeroMerkleTree) (index : Z)
    (v : MerkleNodeValue) :
  0 ≤ index < 2 ^ Z.of_nat (zmt_height t) →
  let h := zmt_height t in
  let st := nodeStore t in
  let st' := nodeStore (setLeaf t index v).2 in
  let proof := (setLeaf t index v).1 in
  (∀ key, (∀ l, (l ≤ h)%nat → key ≠ nodeKey l (index / 2 ^ Z.of_nat (h - l))) →
     nodes st' !! key = nodes st !! key)
  ∧ (∀ l i, (l ≤ h)%nat → i ≠ index / 2 ^ Z.of_nat (h - l) →
       nodes st' !! nodeKey l i = nodes st !! nodeKey l i
       ∧ NodeStore_get st' l i = NodeStore_get st l i)
  ∧ (∀ l, (l ≤ h)%nat →
       is_Some (nodes st' !! nodeKey l (index / 2 ^ Z.of_nat (h - l))))
  ∧ length (delta_siblings proof) = h
  ∧ (∀ k, (k < h)%nat →
       delta_siblings proof !! k
       = Some (NodeStore_get st (h - k)
                 (siblingIndex (index / 2 ^ Z.of_nat k)))
       ∧ NodeStore_get st' (h - k) (siblingIndex (index / 2 ^ Z.of_nat k))
         = NodeStore_get st (h - k) (siblingIndex (index / 2 ^ Z.of_nat k)))
  ∧ (∀ key, is_Some (nodes st !! key) → is_Some (nodes st' !! key))
  ∧ store_height st' = store_height st
  ∧ store_zeroHashes st' = store_zeroHashes st.
Proof.
  intros Hin. cbv zeta.
  assert (Hroot : index / 2 ^ Z.of_nat (zmt_height t - 0) = 0).
  { rewrite Nat.sub_0_r. by apply div_pow2_range. }
  assert (Hoff : ∀ key,
    (∀ l, (l ≤ zmt_height t)%nat →
       key ≠ nodeKey l (index / 2 ^ Z.of_nat (zmt_height t - l))) →
    nodes (nodeStore (setLeaf t index v).2) !! key = nodes (nodeStore t) !! key).
  { intros key Hkey. apply setLeaf_lookup_off_path.
    - specialize (Hkey 0%nat ltac:(lia)). by rewrite Hroot in Hkey.
    - intros l Hl. apply Hkey. lia. }
  assert (Hoff' : ∀ l i, (l ≤ zmt_height t)%nat →
    i ≠ index / 2 ^ Z.of_nat (zmt_height t - l) →
    nodes (nodeStore (setLeaf t index v).2) !! nodeKey l i
    = nodes (nodeStore t) !! nodeKey l i).
  { intros l i Hl Hi. apply Hoff. intros l' Hl'. apply nodeKey_ne.
    destruct (decide (l = l')) as [<-|]; [by right|by left]. }
  destruct (setLeaf_static t index v) as [Hh Hz].
  split; [done|]. split.
  { intros l i Hl Hi. split; [by apply Hoff'|].
    apply NodeStore_get_agree; [by apply Hoff'|done..]. }
  split.
  { intros l Hl. rewrite setLeaf_unfold. cbv zeta. cbn [snd nodeStore nodes NodeStore_set].
    destruct (decide (l = 0%nat)) as [->|Hl0].
    - rewrite Hroot, lookup_insert_eq. eauto.
    - rewrite lookup_insert_ne by (apply nodeKey_ne; left; lia).
      rewrite setLeaf_loop_path by lia. eauto. }
  split.
  { rewrite setLeaf_unfold. cbv zeta. simpl. apply storeSiblings_length. }
  split.
  { intros k Hk. split.
    - rewrite setLeaf_unfold. cbv zeta. cbn [fst delta_siblings].
      by apply storeSiblings_lookup.
    - pose proof (setLeaf_sibling_reads t index v (zmt_height t - k)
                    ltac:(lia)) as Hs.
      by replace (zmt_height t - (zmt_height t - k))%nat with k in Hs by lia. }
  split; [|done].
  intros key Hkey. rewrite setLeaf_unfold. cbv zeta. cbn [snd nodeStore nodes NodeStore_set].
  apply lookup_insert_is_Some.
  destruct (decide (nodeKey 0 0 = key)); [by left|right].
  split; [done|]. by apply setLeaf_loop_keeps.
Qed.

End SetLeafFrame.

(** ** [setLeaf] on numbers *)

Lemma double_round_exact (x : Z) :
  - 2 ^ 53 ≤ x ≤ 2 ^ 53 → double_round x = x.
Proof.
  intros Hx. unfold double_round. cbv zeta.
  destruct (Z.ltb_spec (Z.abs x) (2 ^ 53)) as [|Hge]; [done|].
  assert (x = 2 ^ 53 ∨ x = - 2 ^ 53) as [->| ->] by lia; reflexivity.
Qed.

Section NumberFacts.

Context (hash : MerkleNodeValue -> MerkleNodeValue -> MerkleNodeValue).

Local Abbreviation setLeaf := (setLeaf hash).
Local Abbreviation setLeaves := (setLeaves hash).
Local Abbreviation setLeaf_loop := (setLeaf_loop hash).
Local Abbreviation setLeaf_f64 := (setLeaf_f64 hash).
Local Abbreviation setLeaves_f64 := (setLeaves_f64 hash).
Local Abbreviation setLeaf_loop_f64 := (setLeaf_loop_f64 hash).
Local Abbreviation ZeroMerkleTree_new := (ZeroMerkleTree_new hash).
Local Abbreviation verifyDeltaMerkleProof := (verifyDeltaMerkleProof hash).

(** Below [2^53] the rounding never acts: the loop on numbers is the
    loop on integers. *)
Lemma setLeaf_loop_f64_safe (L : nat) (st : NodeStore) (ci : Z)
    (cv : MerkleNodeValue) (sibs : list MerkleNodeValue) :
  safeIndex ci →
  setLeaf_loop_f64 L st ci cv sibs = setLeaf_loop L st ci cv sibs.
Proof.
  unfold safeIndex. revert st ci cv sibs.
  induction L as [|L IH]; intros st ci cv sibs Hci; [done|].
  simp_setLeaf_loop_f64. simp_setLeaf_loop. cbv zeta.
  rewrite !double_round_exact by lia.
  destruct (Z.rem ci 2 =? 0); apply IH; div_lia.
Qed.

Lemma setLeaf_f64_safe (t : ZeroMerkleTree) (index : Z) (v : MerkleNodeValue) :
  safeIndex index → setLeaf_f64 t index v = setLeaf t index v.
Proof.
  intros Hi. unfold_setLeaf_f64. unfold_setLeaf.
  by rewrite setLeaf_loop_f64_safe.
Qed.

Lemma setLeaves_f64_safe (t : ZeroMerkleTree)
    (calls : list (Z * MerkleNodeValue)) :
  Forall (λ c, safeIndex c.1) calls →
  setLeaves_f64 t calls = setLeaves t calls.
Proof.
  intros Hcalls. revert t.
  induction Hcalls as [|[index v] rest Hi _ IH]; intros t; [done|].
  simp_calls_f64. simp_calls. rewrite setLeaf_f64_safe by done.
  destruct (setLeaf t index v) as [p t']. by rewrite IH.
Qed.

Lemma Forall_in_range_safe (h : nat) (calls : list (Z * MerkleNodeValue)) :
  Forall (λ c, 0 ≤ c.1 < 2 ^ Z.of_nat h ∧ c.1 < 2 ^ 53) calls →
  Forall (λ c, safeIndex c.1) calls
  ∧ Forall (λ c, 0 ≤ c.1 < 2 ^ Z.of_nat h) calls.
Proof.
  intros H. split; eapply Forall_impl; try exact H;
    unfold safeIndex; simpl; intros; lia.
Qed.

(** C2, as amended.  On a fresh [ZeroMerkleTree(h)], for every sequence
    of [setLeaf] calls with integer indices in [[0, 2^h)] that are below
    [2^53], every returned delta proof passes [verifyDeltaMerkleProof],
    and the old root of each proof after the first is the new root of the
    proof before it. *)
Theorem setLeaf_proofs_verify_and_chain (h : nat)
    (calls : list (Z * MerkleNodeValue)) :
  Forall (λ c, 0 ≤ c.1 < 2 ^ Z.of_nat h ∧ c.1 < 2 ^ 53) calls →
  let proofs := (setLeaves_f64 (ZeroMerkleTree_new h) calls).1 in
  length proofs = length calls
  ∧ (∀ i p, proofs !! i = Some p → verifyDeltaMerkleProof p = true)
  ∧ (∀ i p q, proofs !! i = Some p → proofs !! S i = Some q →
       oldRoot q = newRoot p).
Proof.
  intros Hcalls. cbv zeta.
  destruct (Forall_in_range_safe h calls Hcalls) as [Hsafe Hrange].
  rewrite setLeaves_f64_safe by done.
  split; [apply setLeaves_length|]. split; [|apply setLeaves_chain].
  intros i p Hp.
  pose proof (setLeaves_verify hash h _ noLeaves calls (represents_new hash h)
                Hrange) as Hall.
  rewrite Forall_lookup in Hall. by apply (Hall i).
Qed.

(** C8, as amended.  [setLeaf(index, value)] with an integer [index] in
    [[0, 2^h)] that is below [2^53] changes only the entries
    [(level, floor(index / 2^(h - level)))] for [level] from [h] down to
    [0], which it all writes; every other key keeps its entry, the
    store's height and zero hashes stay, the siblings returned are the
    values the store held before the call at the sibling positions and
    still holds there after it, and every key present before is present
    after. *)
Theorem setLeaf_writes_only_path (t : ZeroMerkleTree) (index : Z)
    (v : MerkleNodeValue) :
  0 ≤ index < 2 ^ Z.of_nat (zmt_height t) → index < 2 ^ 53 →
  let h := zmt_height t in
  let st := nodeStore t in
  let st' := nodeStore (setLeaf_f64 t index v).2 in
  let proof := (setLeaf_f64 t index v).1 in
  (∀ key, (∀ l, (l ≤ h)%nat → key ≠ nodeKey l (index / 2 ^ Z.of_nat (h - l))) →
     nodes st' !! key = nodes st !! key)
  ∧ (∀ l i, (l ≤ h)%nat → i ≠ index / 2 ^ Z.of_nat (h - l) →
       nodes st' !! nodeKey l i = nodes st !! nodeKey l i
       ∧ NodeStore_get st' l i = NodeStore_get st l i)
  ∧ (∀ l, (l ≤ h)%nat →
       is_Some (nodes st' !! nodeKey l (index / 2 ^ Z.of_nat (h - l))))
  ∧ length (delta_siblings proof) = h
  ∧ (∀ k, (k < h)%nat →
       delta_siblings proof !! k
       = Some (NodeStore_get st (h - k)
                 (siblingIndex (index / 2 ^ Z.of_nat k)))
       ∧ NodeStore_get st' (h - k) (siblingIndex (index / 2 ^ Z.of_nat k))
         = NodeStore_get st (h - k) (siblingIndex (index / 2 ^ Z.of_nat k)))
  ∧ (∀ key, is_Some (nodes st !! key) → is_Some (nodes st' !! key))
  ∧ store_height st' = store_height st
  ∧ store_zeroHashes st' = store_zeroHashes st.
Proof.
  intros Hin Hsafe. cbv zeta.
  rewrite setLeaf_f64_safe by (unfold safeIndex; lia).
  by apply setLeaf_frame_exact.
Qed.

End NumberFacts.

(** ** The append-only tree *)

Section AppendOnlyFacts.

Context (hash : MerkleNodeValue -> MerkleNodeValue -> MerkleNodeValue).

Local Abbreviation appendLeaf := (appendLeaf hash).
Local Abbreviation appendLeaves := (appendLeaves hash).
Local Abbreviation computeZeroHashes := (computeZeroHashes hash).
Local Abbreviation computeMerkleRootFromProof := (computeMerkleRootFromProof hash).
Local Abbreviation computeMerklePathFromProof := (computeMerklePathFromProof hash).
Local Abbreviation verifyMerkleProof := (verifyMerkleProof hash).
Local Abbreviation verifyDeltaMerkleProof := (verifyDeltaMerkleProof hash).
Local Abbreviation AppendOnlyMerkleTree_new := (AppendOnlyMerkleTree_new hash).
Local Abbreviation frontier := (frontier hash).
Local Abbreviation nodeValue := (nodeValue hash).
Local Abbreviation authPath := (authPath hash).
Local Abbreviation zeroHash := (zeroHash hash).

Lemma appendLeaf_loop_spec
    (zh os omp : list MerkleNodeValue) (prev new : Z)
    (n level : nat) (sibs : list MerkleNodeValue) :
  appendLeaf_loop zh os omp prev new n level (2 ^ Z.of_nat level) sibs
  = sibs ++ map (appendSibling zh os omp prev new) (seq level n).
Proof.
  revert level sibs. induction n as [|n IH]; intros level sibs.
  - simpl. by rewrite app_nil_r.
  - cbn [appendLeaf_loop seq map].
    replace (2 ^ Z.of_nat level * 2) with (2 ^ Z.of_nat (S level))
      by (rewrite pow2_succ; lia).
    rewrite IH, <- app_assoc. done.
Qed.

Lemma authPath_eq_map (f : Z -> MerkleNodeValue) (k : nat) (i : Z) :
  authPath f 0 k i
  = map (λ m, nodeValue f m (siblingIndex (i / 2 ^ Z.of_nat m))) (seq 0 k).
Proof.
  apply list_eq. intros m.
  destruct (decide (m < k)%nat) as [Hm|Hm].
  - rewrite authPath_lookup, list_lookup_fmap, lookup_seq_lt by lia. done.
  - rewrite !lookup_ge_None_2; [done| |].
    + rewrite length_map, length_seq. lia.
    + rewrite authPath_length; lia.
Qed.

(** [appendLeaf] in closed form. *)
Lemma appendLeaf_unfold (t : AppendOnlyMerkleTree) (leafValue : MerkleNodeValue) :
  let prevIndex := index (lastProof t) in
  let sibs :=
    map (appendSibling (zeroHashes t) (siblings (lastProof t))
           (computeMerklePathFromProof (siblings (lastProof t)) prevIndex
              (value (lastProof t)))
           prevIndex (prevIndex + 1))
      (seq 0 (height t)) in
  let newRoot := computeMerkleRootFromProof sibs (prevIndex + 1) leafValue in
  appendLeaf t leafValue
  = ({| delta_index := prevIndex + 1; delta_siblings := sibs;
        oldRoot := root (lastProof t); oldValue := zeroDigest;
        newRoot := newRoot; newValue := leafValue |},
     {| height := height t;
        lastProof := {| root := newRoot; siblings := sibs;
                        index := prevIndex + 1; value := leafValue |};
        zeroHashes := zeroHashes t |}).
Proof.
  cbv zeta. unfold_appendLeaf.
  pose proof (appendLeaf_loop_spec (zeroHashes t) (siblings (lastProof t))
    (computeMerklePathFromProof (siblings (lastProof t)) (index (lastProof t))
       (value (lastProof t)))
    (index (lastProof t)) (index (lastProof t) + 1) (height t) 0 []) as Hloop.
  change (2 ^ Z.of_nat 0) with 1 in Hloop.
  rewrite Hloop. done.
Qed.

(** The sibling reuse rule: on the frontier after [n] appends, pass
    [level] pushes the sibling of the new leaf's path node in the tree
    that has the new leaf. *)
Lemma appendSibling_correct (h : nat) (f : Z -> MerkleNodeValue) (n : Z)
    (val v : MerkleNodeValue) (level : nat) :
  0 ≤ n → emptyFrom n f → (1 ≤ n → val = f (n - 1)) → (level < h)%nat →
  appendSibling (computeZeroHashes h) (authPath f 0 h (n - 1))
    (computeMerklePathFromProof (authPath f 0 h (n - 1)) (n - 1) val)
    (n - 1) n level
  = nodeValue (leafUpdate f n v) level (siblingIndex (n / 2 ^ Z.of_nat level)).
Proof.
  intros Hn Hempty Hval Hlevel. unfold appendSibling. cbv zeta.
  pose proof (pow2_pos level) as Hd.
  destruct (Z.eqb_spec (n / 2 ^ Z.of_nat level) ((n - 1) / 2 ^ Z.of_nat level))
    as [Heq|Hne].
  - (* same path node: the old sibling is reused *)
    unfold arr_get. rewrite authPath_lookup by done. simpl.
    rewrite <- Heq.
    rewrite nodeValue_leafUpdate_ne; [done|].
    pose proof (siblingIndex_ne (n / 2 ^ Z.of_nat level)). congruence.
  - destruct (div_consecutive n (2 ^ Z.of_nat level) Hd) as [|Hq]; [done|].
    destruct (Z.rem (n / 2 ^ Z.of_nat level) 2 =? 0) eqn:Hpar.
    + (* new left child: the sibling subtree is empty *)
      rewrite arr_get_computeZeroHashes by lia.
      rewrite siblingIndex_even by done.
      symmetry. apply nodeValue_empty. intros j Hj.
      assert (n < j) by (apply (div_lt_reflect n j (2 ^ Z.of_nat level)); lia).
      unfold leafUpdate. destruct (Z.eqb_spec j n); [lia|].
      apply Hempty. lia.
    + (* new right child: the sibling is the previous path node *)
      rewrite siblingIndex_odd by done.
      assert (1 ≤ n) as Hn1.
      { destruct (decide (n = 0)) as [->|]; [|lia].
        rewrite Z.div_0_l in Hpar by lia. done. }
      rewrite (Hval Hn1), computeMerklePathFromProof_lookup by lia.
      rewrite nodeValue_leafUpdate_ne by lia.
      f_equal. lia.
Qed.

Lemma frontier_new (h : nat) :
  frontier h (AppendOnlyMerkleTree_new h) 0 noLeaves.
Proof.
  split; [done|]. split; [done|]. split; [done|]. split; [|split].
  - simpl. rewrite take_computeZeroHashes, authPath_eq_map.
    apply map_ext. intros m. by rewrite nodeValue_noLeaves.
  - simpl. rewrite arr_get_computeZeroHashes by lia.
    by rewrite nodeValue_noLeaves.
  - lia.
Qed.

Lemma emptyFrom_leafUpdate (f : Z -> MerkleNodeValue) (n : Z)
    (v : MerkleNodeValue) :
  emptyFrom n f → emptyFrom (n + 1) (leafUpdate f n v).
Proof.
  intros He j Hj. unfold leafUpdate.
  destruct (Z.eqb_spec j n); [lia|]. apply He. lia.
Qed.

(** The siblings [appendLeaf] derives on a frontier are the
    authentication path of the new leaf. *)
Lemma appendLeaf_siblings (h : nat) (t : AppendOnlyMerkleTree)
    (f : Z -> MerkleNodeValue) (n : Z) (v : MerkleNodeValue) :
  frontier h t n f → emptyFrom n f → 0 ≤ n →
  delta_siblings (appendLeaf t v).1 = authPath (leafUpdate f n v) 0 h n
  ∧ delta_index (appendLeaf t v).1 = n.
Proof.
  intros (Hh & Hz & Hi & Hs & Hr & Hv) Hempty Hn.
  rewrite appendLeaf_unfold. cbv zeta. cbn [fst delta_siblings delta_index].
  rewrite Hh, Hz, Hi, Hs. replace (n - 1 + 1) with n by lia.
  split; [|done].
  rewrite (authPath_eq_map (leafUpdate f n v) h n).
  apply map_ext_in. intros level Hlevel.
  apply in_seq in Hlevel.
  apply (appendSibling_correct h); auto; lia.
Qed.

(** One append on a frontier with room: the delta proof verifies and the
    tree is the frontier of the extended assignment. *)
Lemma appendLeaf_frontier (h : nat) (t : AppendOnlyMerkleTree)
    (f : Z -> MerkleNodeValue) (n : Z) (v : MerkleNodeValue) :
  frontier h t n f → emptyFrom n f → 0 ≤ n < 2 ^ Z.of_nat h →
  verifyDeltaMerkleProof (appendLeaf t v).1 = true
  ∧ frontier h (appendLeaf t v).2 (n + 1) (leafUpdate f n v).
Proof.
  intros Hfr Hempty Hn.
  destruct (appendLeaf_siblings h t f n v Hfr Hempty ltac:(lia)) as [Hsibs Hidx].
  destruct Hfr as (Hh & Hz & Hi & Hs & Hr & Hv).
  assert (Hdiv : n / 2 ^ Z.of_nat h = 0) by (by apply div_pow2_range).
  revert Hsibs Hidx. rewrite appendLeaf_unfold. cbv zeta.
  cbn [fst snd delta_siblings delta_index]. intros Hsibs Hidx.
  rewrite Hsibs, Hidx. split.
  - apply verifyDeltaMerkleProof_true.
    cbn [delta_siblings delta_index oldRoot oldValue newRoot newValue].
    split; [|done].
    rewrite authPath_leafUpdate, Hr.
    rewrite <- (Hempty n) by lia.
    change (f n) with (nodeValue f 0 n).
    rewrite root_from_authPath, Hdiv. done.
  - split; [done|]. split; [done|]. simpl.
    replace (n + 1 - 1) with n by lia.
    split; [done|]. split; [done|]. split.
    + rewrite <- (leafUpdate_eq f n v) at 2.
      change (leafUpdate f n v n) with (nodeValue (leafUpdate f n v) 0 n).
      rewrite root_from_authPath, Hdiv. done.
    + intros _. by rewrite leafUpdate_eq.
Qed.

End AppendOnlyFacts.

(** ** Sequences of appends, and the two trees side by side *)

Section Sequences.

Context (hash : MerkleNodeValue -> MerkleNodeValue -> MerkleNodeValue).

Local Abbreviation appendLeaf := (appendLeaf hash).
Local Abbreviation appendLeaves := (appendLeaves hash).
Local Abbreviation setLeaf := (setLeaf hash).
Local Abbreviation setLeaves := (setLeaves hash).
Local Abbreviation computeMerkleRootFromProof := (computeMerkleRootFromProof hash).
Local Abbreviation verifyMerkleProof := (verifyMerkleProof hash).
Local Abbreviation verifyDeltaMerkleProof := (verifyDeltaMerkleProof hash).
Local Abbreviation AppendOnlyMerkleTree_new := (AppendOnlyMerkleTree_new hash).
Local Abbreviation ZeroMerkleTree_new := (ZeroMerkleTree_new hash).
Local Abbreviation frontier := (frontier hash).
Local Abbreviation treeRepresents := (treeRepresents hash).
Local Abbreviation nodeValue := (nodeValue hash).
Local Abbreviation zeroHash := (zeroHash hash).

Lemma appendLeaves_cons (t : AppendOnlyMerkleTree) (v : MerkleNodeValue)
    (rest : list MerkleNodeValue) :
  appendLeaves t (v :: rest)
  = ((appendLeaf t v).1 :: (appendLeaves (appendLeaf t v).2 rest).1,
     (appendLeaves (appendLeaf t v).2 rest).2).
Proof.
  simp_calls. destruct (appendLeaf t v) as [p t'].
  cbn [fst snd]. by destruct (appendLeaves t' rest).
Qed.

Lemma appendLeaves_length (t : AppendOnlyMerkleTree)
    (leaves : list MerkleNodeValue) :
  length (appendLeaves t leaves).1 = length leaves.
Proof.
  revert t. induction leaves as [|v rest IH]; intros t; [done|].
  rewrite appendLeaves_cons. simpl. by rewrite IH.
Qed.

(** What one append does to [lastProof], on any tree state. *)
Lemma appendLeaf_lastProof (t : AppendOnlyMerkleTree) (v : MerkleNodeValue) :
  let p := (appendLeaf t v).1 in
  let t' := (appendLeaf t v).2 in
  oldRoot p = root (lastProof t)
  ∧ oldValue p = zeroDigest
  ∧ newValue p = v
  ∧ delta_index p = index (lastProof t) + 1
  ∧ length (delta_siblings p) = height t
  ∧ newRoot p = computeMerkleRootFromProof (delta_siblings p) (delta_index p) v
  ∧ lastProof t'
    = {| root := newRoot p; siblings := delta_siblings p;
         index := delta_index p; value := v |}
  ∧ height t' = height t
  ∧ zeroHashes t' = zeroHashes t.
Proof.
  rewrite appendLeaf_unfold. cbv zeta. simpl.
  rewrite length_map, length_seq. done.
Qed.

Lemma appendLeaf_lastProof_verifies (t : AppendOnlyMerkleTree)
    (v : MerkleNodeValue) :
  verifyMerkleProof (lastProof (appendLeaf t v).2) = true.
Proof.
  destruct (appendLeaf_lastProof t v) as (_ & _ & _ & _ & _ & Hr & -> & _).
  by apply verifyMerkleProof_true.
Qed.

Lemma appendLeaves_chain (t : AppendOnlyMerkleTree)
    (leaves : list MerkleNodeValue) :
  (∀ p, (appendLeaves t leaves).1 !! 0%nat = Some p →
     oldRoot p = root (lastProof t))
  ∧ (∀ i p q, (appendLeaves t leaves).1 !! i = Some p →
       (appendLeaves t leaves).1 !! S i = Some q → oldRoot q = newRoot p).
Proof.
  revert t. induction leaves as [|v rest IH]; intros t.
  - split; intros; simplify_eq/=.
  - rewrite appendLeaves_cons. cbn [fst].
    destruct (IH (appendLeaf t v).2) as [IH0 IHS].
    destruct (appendLeaf_lastProof t v) as (Ho & _ & _ & _ & _ & _ & Hl & _).
    split.
    + intros p [= <-]. done.
    + intros [|i] p q Hp Hq.
      * assert ((appendLeaf t v).1 = p) as <- by (by injection Hp).
        rewrite (IH0 q Hq), Hl. done.
      * by apply (IHS i).
Qed.

(** After at least one append, [lastProof] is the proof of the last leaf
    appended. *)
Lemma appendLeaves_lastProof (t : AppendOnlyMerkleTree)
    (leaves : list MerkleNodeValue) :
  leaves ≠ [] →
  verifyMerkleProof (lastProof (appendLeaves t leaves).2) = true
  ∧ index (lastProof (appendLeaves t leaves).2)
    = index (lastProof t) + Z.of_nat (length leaves)
  ∧ ∃ p v, last (appendLeaves t leaves).1 = Some p
           ∧ last leaves = Some v
           ∧ root (lastProof (appendLeaves t leaves).2) = newRoot p
           ∧ value (lastProof (appendLeaves t leaves).2) = v.
Proof.
  revert t. induction leaves as [|v rest IH]; intros t Hne; [done|].
  rewrite appendLeaves_cons. cbn [fst snd].
  destruct (appendLeaf_lastProof t v) as (_ & _ & _ & Hi & _ & _ & Hl & _).
  destruct rest as [|v' rest'].
  - simp_calls. cbn [fst snd last length].
    split; [apply appendLeaf_lastProof_verifies|].
    rewrite Hl. cbn [index root value]. split; [lia|].
    exists (appendLeaf t v).1, v. done.
  - destruct (IH (appendLeaf t v).2 ltac:(done)) as (Hv & Hidx & p & w & Hp & Hw & Hr).
    split; [done|]. split.
    + rewrite Hidx, Hl. cbn [index length]. lia.
    + exists p, w. by rewrite last_cons, Hp, last_cons_cons, Hw.
Qed.

Lemma callsFrom_cons (n : Z) (v : MerkleNodeValue)
    (rest : list MerkleNodeValue) :
  callsFrom n (v :: rest) = (n, v) :: callsFrom (n + 1) rest.
Proof.
  unfold callsFrom. simpl. f_equal; [f_equal; lia|].
  apply imap_ext. intros i x _. simpl. f_equal. lia.
Qed.

Lemma inOrderCalls_callsFrom (leaves : list MerkleNodeValue) :
  inOrderCalls leaves = callsFrom 0 leaves.
Proof. unfold inOrderCalls, callsFrom. by apply imap_ext. Qed.

Lemma callsFrom_in_range (h : nat) (n : Z) (leaves : list MerkleNodeValue) :
  0 ≤ n → n + Z.of_nat (length leaves) ≤ 2 ^ Z.of_nat h →
  Forall (λ c, 0 ≤ c.1 < 2 ^ Z.of_nat h) (callsFrom n leaves).
Proof.
  revert n. induction leaves as [|v rest IH]; intros n Hn Hlen.
  - constructor.
  - rewrite callsFrom_cons. cbn [length] in Hlen.
    constructor; [simpl; lia|]. apply IH; lia.
Qed.

(** Appends on a frontier with room: each proof verifies, proof [i] is
    for index [n + i], and the result is the frontier of the assignment
    with the appended leaves written in order. *)
Lemma appendLeaves_frontier (h : nat) (t : AppendOnlyMerkleTree)
    (f : Z -> MerkleNodeValue) (n : Z) (leaves : list MerkleNodeValue) :
  frontier h t n f → emptyFrom n f → 0 ≤ n →
  n + Z.of_nat (length leaves) ≤ 2 ^ Z.of_nat h →
  (∀ i p, (appendLeaves t leaves).1 !! i = Some p →
     verifyDeltaMerkleProof p = true ∧ delta_index p = n + Z.of_nat i)
  ∧ frontier h (appendLeaves t leaves).2 (n + Z.of_nat (length leaves))
      (applyCalls f (callsFrom n leaves)).
Proof.
  revert t f n. induction leaves as [|v rest IH]; intros t f n Hfr Hempty Hn Hlen.
  - split; [intros; simplify_eq/=|].
    simpl. by rewrite Z.add_0_r.
  - cbn [length] in Hlen. rewrite appendLeaves_cons, callsFrom_cons.
    cbn [fst snd].
    destruct (appendLeaf_frontier hash h t f n v Hfr Hempty ltac:(lia))
      as [Hver Hfr'].
    destruct (appendLeaf_siblings hash h t f n v Hfr Hempty Hn) as [_ Hidx].
    destruct (IH (appendLeaf t v).2 (leafUpdate f n v) (n + 1) Hfr'
                (emptyFrom_leafUpdate f n v Hempty) ltac:(lia) ltac:(lia))
      as [IHp IHf].
    split.
    + intros [|i] p Hp.
      * assert ((appendLeaf t v).1 = p) as <- by (by injection Hp).
        split; [done|]. rewrite Hidx. lia.
      * destruct (IHp i p Hp) as [? ->]. split; [done|lia].
    + replace (n + Z.of_nat (length (v :: rest)))
        with (n + 1 + Z.of_nat (length rest)) by (cbn [length]; lia).
      done.
Qed.

Lemma setLeaves_represents (h : nat) (t : ZeroMerkleTree)
    (f : Z -> MerkleNodeValue) (calls : list (Z * MerkleNodeValue)) :
  treeRepresents h t f →
  Forall (λ c, 0 ≤ c.1 < 2 ^ Z.of_nat h) calls →
  treeRepresents h (setLeaves t calls).2 (applyCalls f calls).
Proof.
  intros Ht Hcalls. revert t f Ht.
  induction Hcalls as [|[index v] rest Hin _ IH]; intros t f Ht.
  - done.
  - rewrite setLeaves_cons. cbn [snd]. apply IH.
    by apply setLeaf_represents.
Qed.

(** C3.  On a fresh [AppendOnlyMerkleTree(h)], for [n <= 2^h] appends:
    every returned delta proof passes [verifyDeltaMerkleProof]; its
    [oldValue] is the all-zero digest and its old proof folds to
    [oldRoot]; proof [i] is for index [i]; and the old root of each proof
    after the first is the new root of the proof before it. *)
Theorem appendLeaf_proofs_verify_and_chain (h : nat)
    (leaves : list MerkleNodeValue) :
  Z.of_nat (length leaves) ≤ 2 ^ Z.of_nat h →
  let proofs := (appendLeaves (AppendOnlyMerkleTree_new h) leaves).1 in
  length proofs = length leaves
  ∧ (∀ i p, proofs !! i = Some p →
       verifyDeltaMerkleProof p = true
       ∧ oldValue p = zeroDigest
       ∧ oldRoot p
         = computeMerkleRootFromProof (delta_siblings p) (delta_index p)
             zeroDigest
       ∧ delta_index p = Z.of_nat i)
  ∧ (∀ i p q, proofs !! i = Some p → proofs !! S i = Some q →
       oldRoot q = newRoot p).
Proof.
  intros Hlen. cbv zeta.
  split; [apply appendLeaves_length|]. split; [|apply appendLeaves_chain].
  intros i p Hp.
  destruct (appendLeaves_frontier h _ noLeaves 0 leaves (frontier_new hash h)
              ltac:(done) ltac:(lia) ltac:(lia)) as [Hall _].
  destruct (Hall i p Hp) as [Hver Hidx].
  assert (oldValue p = zeroDigest) as Hold.
  { clear Hall Hver Hidx Hlen. revert Hp.
    generalize (AppendOnlyMerkleTree_new h). revert i.
    induction leaves as [|v rest IH]; intros i t Hp; [simplify_eq/=|].
    rewrite appendLeaves_cons in Hp. destruct i as [|i].
    - assert ((appendLeaf t v).1 = p) as <- by (by injection Hp).
      apply appendLeaf_lastProof.
    - by apply (IH i (appendLeaf t v).2). }
  split; [done|]. split; [done|]. split; [|lia].
  apply verifyDeltaMerkleProof_true in Hver as [Ho _].
  by rewrite Hold in Ho.
Qed.

(** C1.  Appending [2^h] leaves to a fresh [AppendOnlyMerkleTree(h)]
    ends with the root that a fresh [ZeroMerkleTree(h)] reports after
    [setLeaf(i, v_i)] for [i = 0 .. 2^h - 1] in order; that root is the
    [newRoot] of the last delta proof returned and is [lastProof.root]. *)
Theorem append_all_same_root_as_setLeaf_all (h : nat)
    (leaves : list MerkleNodeValue) :
  Z.of_nat (length leaves) = 2 ^ Z.of_nat h →
  let appended := appendLeaves (AppendOnlyMerkleTree_new h) leaves in
  let written := setLeaves (ZeroMerkleTree_new h) (inOrderCalls leaves) in
  root (lastProof appended.2) = getRoot written.2
  ∧ ∃ lastDelta, last appended.1 = Some lastDelta
                 ∧ newRoot lastDelta = root (lastProof appended.2)
                 ∧ newRoot lastDelta = getRoot written.2.
Proof.
  intros Hlen. cbv zeta.
  destruct (appendLeaves_frontier h _ noLeaves 0 leaves (frontier_new hash h)
              ltac:(done) ltac:(lia) ltac:(lia))
    as [_ (_ & _ & _ & _ & Hroot & _)].
  pose proof (setLeaves_represents h _ noLeaves (inOrderCalls leaves)
                (represents_new hash h)) as Hrep.
  rewrite inOrderCalls_callsFrom in Hrep |- *.
  destruct (Hrep (callsFrom_in_range h 0 leaves ltac:(lia) ltac:(lia)))
    as [_ (_ & _ & Hget)].
  assert (Hsame : root (lastProof (appendLeaves (AppendOnlyMerkleTree_new h) leaves).2)
                  = getRoot (setLeaves (ZeroMerkleTree_new h) (callsFrom 0 leaves)).2).
  { unfold getRoot. rewrite Hget by lia. by rewrite Nat.sub_0_r. }
  split; [done|].
  assert (leaves ≠ []) as Hne.
  { intros ->. simpl in Hlen. pose proof (pow2_pos h). lia. }
  destruct (appendLeaves_lastProof (AppendOnlyMerkleTree_new h) leaves Hne)
    as (_ & _ & p & v & Hp & _ & Hr & _).
  exists p. split; [done|]. split; [done|]. by rewrite <- Hsame.
Qed.

End Sequences.

(** ** The dummy proof of a tree without leaves *)

Section DummyProof.

Context (hash : MerkleNodeValue -> MerkleNodeValue -> MerkleNodeValue).

Local Abbreviation appendLeaves := (appendLeaves hash).
Local Abbreviation computeMerkleRootFromProof := (computeMerkleRootFromProof hash).
Local Abbreviation verifyMerkleProof := (verifyMerkleProof hash).
Local Abbreviation AppendOnlyMerkleTree_new := (AppendOnlyMerkleTree_new hash).
Local Abbreviation zeroHash := (zeroHash hash).

(** At index [-1] every pass takes the odd branch and stays at [-1]. *)
Lemma fold_minus_one_zero (k m : nat) :
  computeMerkleRootFromProof (map zeroHash (seq k m)) (-1) (zeroHash k)
  = zeroHash (k + m).
Proof.
  revert k. induction m as [|m IH]; intros k.
  - simpl. by rewrite Nat.add_0_r.
  - cbn [seq map]. simp_paths.
    change (-1 / 2) with (-1).
    change (parentOnPath hash (-1) (zeroHash k) (zeroHash k))
      with (zeroHash (S k)).
    rewrite IH. f_equal. lia.
Qed.

Lemma fold_minus_one_inv (k m : nat) (x : MerkleNodeValue) :
  collisionFree hash →
  computeMerkleRootFromProof (map zeroHash (seq k m)) (-1) x = zeroHash (k + m) →
  x = zeroHash k.
Proof.
  intros Hcf. revert k x. induction m as [|m IH]; intros k x.
  - simpl. by rewrite Nat.add_0_r.
  - cbn [seq map]. simp_paths.
    change (-1 / 2) with (-1).
    change (parentOnPath hash (-1) x (zeroHash k)) with (hash (zeroHash k) x).
    replace (k + S m)%nat with (S k + m)%nat by lia.
    intros Heq. apply IH in Heq. simpl in Heq.
    by apply Hcf in Heq as [_ ->].
Qed.

(** C10, as amended.  After [n >= 1] appends on a fresh
    [AppendOnlyMerkleTree(h)], [lastProof] passes [verifyMerkleProof],
    its index is [n - 1], its root is the [newRoot] of the [n]-th delta
    proof and its value is the [n]-th leaf.  Before any append,
    [lastProof] has index [-1]; it passes [verifyMerkleProof] whenever
    the zero hash of height [h] is the all-zero digest, as it is for
    [h = 0], and for a collision-free hash only then. *)
Theorem lastProof_invariant (h : nat) :
  (∀ leaves, leaves ≠ [] →
     let after := appendLeaves (AppendOnlyMerkleTree_new h) leaves in
     verifyMerkleProof (lastProof after.2) = true
     ∧ index (lastProof after.2) = Z.of_nat (length leaves) - 1
     ∧ ∃ p v, last after.1 = Some p
              ∧ last leaves = Some v
              ∧ root (lastProof after.2) = newRoot p
              ∧ value (lastProof after.2) = v)
  ∧ index (lastProof (AppendOnlyMerkleTree_new h)) = -1
  ∧ (zeroHash h = zeroDigest →
     verifyMerkleProof (lastProof (AppendOnlyMerkleTree_new h)) = true)
  ∧ (collisionFree hash →
     verifyMerkleProof (lastProof (AppendOnlyMerkleTree_new h)) = true →
     zeroHash h = zeroDigest).
Proof.
  split.
  { intros leaves Hne. cbv zeta.
    destruct (appendLeaves_lastProof hash (AppendOnlyMerkleTree_new h) leaves Hne)
      as (Hv & Hi & Hex).
    split; [done|]. split; [|done].
    rewrite Hi. simpl. lia. }
  split; [done|].
  rewrite verifyMerkleProof_true. simpl.
  rewrite take_computeZeroHashes, arr_get_computeZeroHashes by lia.
  split.
  - intros Hz. rewrite Hz at 2. change zeroDigest with (zeroHash 0).
    by rewrite fold_minus_one_zero.
  - intros Hcf Heq. symmetry in Heq.
    by apply (fold_minus_one_inv 0 h) in Heq.
Qed.

End DummyProof.

(** ** Calls outside the contract *)

Section NoValidation.

Context (hash : MerkleNodeValue -> MerkleNodeValue -> MerkleNodeValue).

Local Abbreviation appendLeaf := (appendLeaf hash).
Local Abbreviation setLeaf := (setLeaf hash).
Local Abbreviation computeMerkleRootFromProof := (computeMerkleRootFromProof hash).
Local Abbreviation verifyMerkleProof := (verifyMerkleProof hash).

(** The fold does not know the height: more siblings carry it on. *)
Lemma computeMerkleRootFromProof_app (sibs extra : list MerkleNodeValue)
    (idx : Z) (v : MerkleNodeValue) :
  computeMerkleRootFromProof (sibs ++ extra) idx v
  = computeMerkleRootFromProof extra (idx / 2 ^ Z.of_nat (length sibs))
      (computeMerkleRootFromProof sibs idx v).
Proof.
  revert idx v. induction sibs as [|s sibs IH]; intros idx v.
  - simpl. by rewrite Z.div_1_r.
  - cbn [app length]. simp_paths.
    by rewrite IH, div_pow2_succ_inner.
Qed.

(** C7, as amended.  No operation checks its contract, and each returns
    normally whatever it is given.  [setLeaf], for every integer index,
    in [[0, 2^height)] or not, returns a delta proof for that index with
    [height] siblings whose new root is the fold of its siblings, and
    makes that new root the root of the tree.  [appendLeaf], on every
    tree state, full or not, returns a delta proof for the index after
    [lastProof.index] whose new root is the fold of its siblings.
    [computeMerkleRootFromProof] folds a siblings array of any length,
    and [verifyMerkleProof] compares the claimed root with that fold. *)
Theorem operations_return_without_validation :
  (∀ (t : ZeroMerkleTree) (idx : Z) (v : MerkleNodeValue),
     let p := (setLeaf t idx v).1 in
     delta_index p = idx
     ∧ newValue p = v
     ∧ length (delta_siblings p) = zmt_height t
     ∧ newRoot p = computeMerkleRootFromProof (delta_siblings p) idx v
     ∧ oldRoot p = getRoot t
     ∧ getRoot (setLeaf t idx v).2 = newRoot p)
  ∧ (∀ (t : AppendOnlyMerkleTree) (v : MerkleNodeValue),
       let p := (appendLeaf t v).1 in
       delta_index p = index (lastProof t) + 1
       ∧ newValue p = v
       ∧ length (delta_siblings p) = height t
       ∧ newRoot p
         = computeMerkleRootFromProof (delta_siblings p) (delta_index p) v
       ∧ oldRoot p = root (lastProof t)
       ∧ root (lastProof (appendLeaf t v).2) = newRoot p)
  ∧ (∀ (sibs extra : list MerkleNodeValue) (idx : Z) (v : MerkleNodeValue),
       computeMerkleRootFromProof (sibs ++ extra) idx v
       = computeMerkleRootFromProof extra (idx / 2 ^ Z.of_nat (length sibs))
           (computeMerkleRootFromProof sibs idx v))
  ∧ (∀ p : IMerkleProof,
       verifyMerkleProof p = true
       ↔ root p
         = computeMerkleRootFromProof (siblings p) (index p) (value p)).
Proof.
  split; [|split; [|split]].
  - intros t idx v. cbv zeta.
    split; [by rewrite setLeaf_unfold|].
    split; [by rewrite setLeaf_unfold|].
    split; [rewrite setLeaf_unfold; apply storeSiblings_length|].
    split; [by rewrite setLeaf_unfold|].
    split; [apply setLeaf_oldRoot|apply setLeaf_getRoot].
  - intros t v. cbv zeta.
    destruct (appendLeaf_lastProof hash t v)
      as (Ho & _ & Hn & Hi & Hlen & Hr & Hl & _).
    rewrite Hl. done.
  - apply computeMerkleRootFromProof_app.
  - apply verifyMerkleProof_true.
Qed.

End NoValidation.

(** ** [computeMerkleRootFromProof] as a run of its loop *)

Section FoldMachineFacts.

Context (hash : MerkleNodeValue -> MerkleNodeValue -> MerkleNodeValue).

Local Abbreviation computeMerkleRootFromProof := (computeMerkleRootFromProof hash).
Local Abbreviation fold_step := (fold_step hash).

Lemma fold_step_deterministic (sibs : list MerkleNodeValue)
    (s s1 s2 : FoldState) :
  fold_step sibs s s1 → fold_step sibs s s2 → s1 = s2.
Proof.
  intros H1 H2. inversion H1; subst. inversion H2; subst. congruence.
Qed.

Lemma fold_done_no_step (sibs : list MerkleNodeValue) (s s' : FoldState) :
  fold_done sibs s → ¬ fold_step sibs s s'.
Proof.
  intros Hdone Hstep. inversion Hstep; subst.
  apply Hdone. simpl. by eapply lookup_lt_Some.
Qed.

(** While the loop condition holds, the pass can be taken: the read
    [siblings[i]] is in range. *)
Lemma fold_progress (sibs : list MerkleNodeValue) (s : FoldState) :
  ¬ fold_done sibs s → ∃ s', fold_step sibs s s'.
Proof.
  intros Hnd. destruct s as [i v idx].
  destruct (lookup_lt_is_Some_2 sibs i) as [sib Hsib].
  { unfold fold_done in Hnd. simpl in Hnd.
    destruct (decide (i < length sibs)%nat); [done|]. by destruct Hnd. }
  eexists. by constructor.
Qed.

Lemma fold_run (before rest : list MerkleNodeValue) (v : MerkleNodeValue)
    (idx : Z) :
  rtc (fold_step (before ++ rest))
    (MkFoldState (length before) v idx)
    (MkFoldState (length (before ++ rest))
       (computeMerkleRootFromProof rest idx v)
       (idx / 2 ^ Z.of_nat (length rest))).
Proof.
  revert before v idx. induction rest as [|s rest IH]; intros before v idx.
  - rewrite app_nil_r. simpl. rewrite Z.div_1_r. done.
  - eapply rtc_l.
    + constructor. by apply list_lookup_middle.
    + specialize (IH (before ++ [s]) (parentOnPath hash idx v s) (idx / 2)).
      rewrite <- app_assoc, length_app in IH. simpl in IH.
      rewrite Nat.add_1_r in IH.
      cbn [length]. simp_paths.
      by rewrite div_pow2_succ_inner.
Qed.

Lemma fold_final_unique (sibs : list MerkleNodeValue) (s f1 f2 : FoldState) :
  rtc (fold_step sibs) s f1 → fold_done sibs f1 →
  rtc (fold_step sibs) s f2 → fold_done sibs f2 → f1 = f2.
Proof.
  intros H1 Hd1. revert f2.
  induction H1 as [s|s s' f1 Hstep Hrest IH]; intros f2 H2 Hd2.
  - inversion H2 as [|? s'' ? Hstep' Hrest']; subst; [done|].
    by destruct (fold_done_no_step sibs s s'').
  - inversion H2 as [|? s'' ? Hstep' Hrest']; subst.
    + by destruct (fold_done_no_step sibs f2 s').
    + rewrite (fold_step_deterministic sibs s s'' s' Hstep' Hstep) in Hrest'.
      by apply IH.
Qed.

(** C9.  For every siblings array, every integer index and every value,
    the loop of [computeMerkleRootFromProof] runs to completion: from
    the initial state it reaches, after one pass per sibling, a state in
    which the loop condition fails; no pass before that is stuck on an
    out-of-range read; the final state is the only one reachable; and the
    value it holds is the node the function returns. *)
Theorem computeMerkleRootFromProof_total (sibs : list MerkleNodeValue)
    (idx : Z) (v : MerkleNodeValue) :
  let start := MkFoldState 0 v idx in
  ∃ final,
    rtc (fold_step sibs) start final
    ∧ fold_done sibs final
    ∧ fold_i final = length sibs
    ∧ fold_value final = computeMerkleRootFromProof sibs idx v
    ∧ (∀ s, rtc (fold_step sibs) start s → fold_done sibs s → s = final)
    ∧ (∀ s, rtc (fold_step sibs) start s → ¬ fold_done sibs s →
         ∃ s', fold_step sibs s s').
Proof.
  cbv zeta.
  exists (MkFoldState (length sibs) (computeMerkleRootFromProof sibs idx v)
            (idx / 2 ^ Z.of_nat (length sibs))).
  assert (Hrun := fold_run [] sibs v idx). simpl in Hrun.
  assert (Hdone : fold_done sibs
            (MkFoldState (length sibs) (computeMerkleRootFromProof sibs idx v)
               (idx / 2 ^ Z.of_nat (length sibs)))).
  { unfold fold_done. simpl. lia. }
  split; [done|]. split; [done|]. split; [done|]. split; [done|]. split.
  - intros s Hs Hd. by apply (fold_final_unique sibs (MkFoldState 0 v idx)).
  - intros s _ Hnd. by apply fold_progress.
Qed.

End FoldMachineFacts.

(** ** Instances on concrete inputs *)

Lemma pairHash_collisionFree : collisionFree pairHash.
Proof.
  intros a. induction a as [|x a IH]; intros b [|y c] d Heq;
    simplify_eq/=; try done.
  destruct (IH b c d) as [-> ->]; done.
Qed.

(** Height 2, four leaves: both trees end with the same root. *)
Lemma append_all_same_root_as_setLeaf_all_witness :
  let leaves := [smallLeaf "1"; smallLeaf "3"; smallLeaf "3"; smallLeaf "7"] in
  let appended :=
    appendLeaves pairHash (AppendOnlyMerkleTree_new pairHash 2) leaves in
  let written :=
    setLeaves pairHash (ZeroMerkleTree_new pairHash 2) (inOrderCalls leaves) in
  root (lastProof appended.2) = getRoot written.2
  ∧ ∃ lastDelta, last appended.1 = Some lastDelta
                 ∧ newRoot lastDelta = root (lastProof appended.2)
                 ∧ newRoot lastDelta = getRoot written.2.
Proof.
  apply (append_all_same_root_as_setLeaf_all pairHash 2
           [smallLeaf "1"; smallLeaf "3"; smallLeaf "3"; smallLeaf "7"]).
  reflexivity.
Defined.

(** The sparse-tree demonstration: height 3, the eight leaves at indices
    0 to 7. *)
Lemma setLeaf_proofs_verify_and_chain_witness :
  let proofs :=
    (setLeaves_f64 pairHash (ZeroMerkleTree_new pairHash 3)
       (inOrderCalls leavesToSet)).1 in
  length proofs = length (inOrderCalls leavesToSet)
  ∧ (∀ i p, proofs !! i = Some p → verifyDeltaMerkleProof pairHash p = true)
  ∧ (∀ i p q, proofs !! i = Some p → proofs !! S i = Some q →
       oldRoot q = newRoot p).
Proof.
  apply (setLeaf_proofs_verify_and_chain pairHash 3 (inOrderCalls leavesToSet)).
  repeat (apply Forall_cons_2;
            [split; [split; [discriminate|reflexivity]|reflexivity]|]).
  apply Forall_nil_2.
Defined.

(** The append-only demonstration: height 50, its first two appends. *)
Lemma appendLeaf_proofs_verify_and_chain_witness :
  let proofs :=
    (appendLeaves pairHash (AppendOnlyMerkleTree_new pairHash 50)
       firstAppends).1 in
  length proofs = length firstAppends
  ∧ (∀ i p, proofs !! i = Some p →
       verifyDeltaMerkleProof pairHash p = true
       ∧ oldValue p = zeroDigest
       ∧ oldRoot p
         = computeMerkleRootFromProof pairHash (delta_siblings p)
             (delta_index p) zeroDigest
       ∧ delta_index p = Z.of_nat i)
  ∧ (∀ i p q, proofs !! i = Some p → proofs !! S i = Some q →
       oldRoot q = newRoot p).
Proof.
  apply (appendLeaf_proofs_verify_and_chain pairHash 50 firstAppends).
  vm_compute. discriminate.
Defined.

(** Leaf 5 of a fresh tree of height 3, set twice to the same value. *)
Lemma setLeaf_twice_same_witness :
  let t1 :=
    (setLeaf pairHash (ZeroMerkleTree_new pairHash 3) 5 (smallLeaf "7")).2 in
  let second := (setLeaf pairHash t1 5 (smallLeaf "7")).1 in
  oldRoot second = newRoot second
  ∧ oldValue second = smallLeaf "7"
  ∧ newValue second = smallLeaf "7".
Proof.
  apply (setLeaf_twice_same pairHash (ZeroMerkleTree_new pairHash 3) 5
           (smallLeaf "7")).
  split; [discriminate|reflexivity].
Defined.

(** Leaf 5 of a fresh tree of height 3: the keys written are [3_5],
    [2_2], [1_1] and [0_0]. *)
Lemma setLeaf_writes_only_path_witness :
  let t := ZeroMerkleTree_new pairHash 3 in
  let st' := nodeStore (setLeaf_f64 pairHash t 5 (smallLeaf "7")).2 in
  (∀ key, (∀ l, (l ≤ 3)%nat → key ≠ nodeKey l (5 / 2 ^ Z.of_nat (3 - l))) →
     nodes st' !! key = nodes (nodeStore t) !! key)
  ∧ (∀ key, is_Some (nodes (nodeStore t) !! key) → is_Some (nodes st' !! key)).
Proof.
  destruct (setLeaf_writes_only_path pairHash (ZeroMerkleTree_new pairHash 3) 5
              (smallLeaf "7"))
    as (Hoff & _ & _ & _ & _ & Hkeep & _).
  - split; [discriminate|reflexivity].
  - reflexivity.
  - split; [exact Hoff|exact Hkeep].
Defined.

(** With [pairHash] and height 1 the zero hash differs from the all-zero
    digest, and the dummy proof fails verification. *)
Lemma lastProof_invariant_witness :
  verifyMerkleProof pairHash (lastProof (AppendOnlyMerkleTree_new pairHash 1))
  = false.
Proof.
  destruct (lastProof_invariant pairHash 1) as (_ & _ & _ & Honly).
  destruct (verifyMerkleProof pairHash
              (lastProof (AppendOnlyMerkleTree_new pairHash 1))) eqn:E;
    [|reflexivity].
  discriminate (Honly pairHash_collisionFree eq_refl).
Defined.

(** C10, counterexample.  For height 0, before any append, [lastProof]
    has index [-1] and passes [verifyMerkleProof]: its siblings are
    empty and its value is its root.  No hashing takes place. *)
Lemma dummy_proof_verifies_at_height_zero :
  index (lastProof (AppendOnlyMerkleTree_new pairHash 0)) = -1
  ∧ verifyMerkleProof pairHash (lastProof (AppendOnlyMerkleTree_new pairHash 0))
    = true.
Proof. split; reflexivity. Qed.

(** C7, counterexample.  Three calls outside the contract, none of which
    hashes anything, each returning a value.
    - [setLeaf(1, v)] on a fresh tree of height 0, whose only index is 0:
      the delta proof returned passes verification and the root of the
      tree becomes [v].
    - A second [appendLeaf] on a tree of height 0, which holds one leaf:
      a delta proof for index 1 is returned; verifying it yields [false].
    - A proof with no siblings, whatever the height of the tree it is
      meant for: [verifyMerkleProof] yields [true] when root and value
      coincide. *)
Lemma contract_violations_return_normally :
  let v := smallLeaf "7" in
  let w := smallLeaf "8" in
  (¬ (0 ≤ 1 < 2 ^ Z.of_nat 0)
   ∧ (setLeaf pairHash (ZeroMerkleTree_new pairHash 0) 1 v).1
     = {| delta_index := 1; delta_siblings := [];
          oldRoot := zeroDigest; oldValue := zeroDigest;
          newRoot := v; newValue := v |}
   ∧ verifyDeltaMerkleProof pairHash
       (setLeaf pairHash (ZeroMerkleTree_new pairHash 0) 1 v).1 = true
   ∧ getRoot (setLeaf pairHash (ZeroMerkleTree_new pairHash 0) 1 v).2 = v)
  ∧ ((appendLeaves pairHash (AppendOnlyMerkleTree_new pairHash 0) [v; w]).1
     !! 1%nat
     = Some {| delta_index := 1; delta_siblings := [];
               oldRoot := v; oldValue := zeroDigest;
               newRoot := w; newValue := w |}
     ∧ verifyDeltaMerkleProof pairHash
         {| delta_index := 1; delta_siblings := [];
            oldRoot := v; oldValue := zeroDigest;
            newRoot := w; newValue := w |} = false)
  ∧ verifyMerkleProof pairHash
      {| root := v; siblings := []; index := 5; value := v |} = true.
Proof.
  cbv zeta. split; [|split].
  - split; [vm_compute; intros [_ H]; discriminate H|].
    split; [reflexivity|]. split; reflexivity.
  - split; reflexivity.
  - reflexivity.
Qed.

(** C2, counterexample.  Height 54, index [2^53], a number in
    [[0, 2^54)]: [2^53 + 1] is rounded to [2^53], so the first pass reads
    as right sibling the leaf it has just written, and the delta proof
    returned fails [verifyDeltaMerkleProof]. *)
Lemma setLeaf_proof_fails_at_two_to_53 :
  let index := 2 ^ 53 in
  let proof :=
    (setLeaf_f64 mixHash (ZeroMerkleTree_new mixHash 54) index
       (smallLeaf "7")).1 in
  0 ≤ index < 2 ^ Z.of_nat 54
  ∧ double_round index = index
  ∧ double_round (index + 1) = index
  ∧ delta_siblings proof !! 0%nat = Some (smallLeaf "7")
  ∧ verifyDeltaMerkleProof mixHash proof = false.
Proof.
  cbv zeta. split; [split; [discriminate|reflexivity]|].
  split; [reflexivity|]. split; [reflexivity|].
  split; vm_compute; reflexivity.
Qed.

(** C8, counterexample.  Height 54, index [2^53] on a fresh tree: the
    sibling position of the leaf is [2^53 + 1], which as a number is
    [2^53], the leaf itself; the store reads the all-zero digest at both
    before the call, yet the first sibling returned is the value the call
    itself has just written at the leaf. *)
Lemma setLeaf_returns_own_write_at_two_to_53 :
  let index := 2 ^ 53 in
  let t := ZeroMerkleTree_new mixHash 54 in
  let proof := (setLeaf_f64 mixHash t index (smallLeaf "7")).1 in
  0 ≤ index < 2 ^ Z.of_nat 54
  ∧ siblingIndex (index / 2 ^ Z.of_nat 0) = index + 1
  ∧ NodeStore_get (nodeStore t) 54 (index + 1) = zeroDigest
  ∧ double_round (index + 1) = index
  ∧ NodeStore_get (nodeStore t) 54 index = zeroDigest
  ∧ delta_siblings proof !! 0%nat = Some (smallLeaf "7")
  ∧ smallLeaf "7" ≠ zeroDigest.
Proof.
  cbv zeta. split; [split; [discriminate|reflexivity]|].
  split; [reflexivity|]. split; [vm_compute; reflexivity|].
  split; [reflexivity|]. split; [vm_compute; reflexivity|].
  split; [vm_compute; reflexivity|]. vm_compute. discriminate.
Qed.

(** * Further properties of the operations *)

(** ** The node store *)

(** X1.  Reading after writing: a write is seen at its own coordinates and
    nowhere else, for reads and for [contains], and a second write to the
    same coordinates replaces the first. *)
Theorem NodeStore_set_then_get (st : NodeStore) (l l' : nat) (i i' : Z)
    (v w : MerkleNodeValue) :
  NodeStore_get (NodeStore_set st l i v) l' i'
    = (if decide (l = l' ∧ i = i') then v else NodeStore_get st l' i')
  ∧ NodeStore_contains (NodeStore_set st l i v) l' i'
    = (if decide (l = l' ∧ i = i') then true else NodeStore_contains st l' i')
  ∧ NodeStore_set (NodeStore_set st l i v) l i w = NodeStore_set st l i w.
Proof.
  split; [|split].
  - case_decide as H.
    + destruct H as [-> ->]. apply NodeStore_get_set_eq.
    + apply NodeStore_get_set_ne.
      destruct (decide (l = l')); [right|left]; naive_solver.
  - unfold NodeStore_contains. simpl. case_decide as H.
    + destruct H as [-> ->]. rewrite lookup_insert_eq.
      apply bool_decide_eq_true_2. eauto.
    + rewrite lookup_insert_ne; [done|]. apply nodeKey_ne.
      destruct (decide (l = l')); [right|left]; naive_solver.
  - unfold NodeStore_set. simpl. by rewrite insert_insert_eq.
Qed.

Section StoreDefaults.

Context (hash : MerkleNodeValue -> MerkleNodeValue -> MerkleNodeValue).

(** X2.  A fresh store contains no node; a read at a level of the tree gives
    the zero hash of the subtree below that level, the entry
    [zeroHashes[height - level]], and a read at a level past the height
    gives [undefined]. *)
Theorem NodeStore_new_reads (h l : nat) (i : Z) :
  NodeStore_contains (NodeStore_new hash h) l i = false
  ∧ NodeStore_get (NodeStore_new hash h) l i
    = (if decide (l ≤ h)%nat
       then arr_get (computeZeroHashes hash h) (h - l)
       else undefined)
  ∧ ((l ≤ h)%nat →
     arr_get (computeZeroHashes hash h) (h - l) = zeroHash hash (h - l)).
Proof.
  split; [|split].
  - unfold NodeStore_contains. simpl. rewrite lookup_empty.
    apply bool_decide_eq_false_2. by intros [? ?].
  - rewrite NodeStore_get_lookup. simpl. rewrite lookup_empty.
    case_decide as H.
    + by apply arr_get_Z_sub.
    + unfold arr_get_Z.
      destruct (Z.ltb_spec (Z.of_nat h - Z.of_nat l) 0); [done|lia].
  - intros Hl. apply arr_get_computeZeroHashes. lia.
Qed.

(** X3.  The table for a tree of height [h] is the start of the table for any
    taller tree. *)
Theorem computeZeroHashes_prefix (h k : nat) :
  computeZeroHashes hash h = take (S h) (computeZeroHashes hash (h + k)).
Proof.
  rewrite !computeZeroHashes_eq, <- fmap_take, take_seq.
  do 2 f_equal. lia.
Qed.

End StoreDefaults.

(** ** Paths and roots *)

Section PathFacts.

Context (hash : MerkleNodeValue -> MerkleNodeValue -> MerkleNodeValue).

Local Abbreviation computeMerkleRootFromProof := (computeMerkleRootFromProof hash).
Local Abbreviation computeMerklePathFromProof := (computeMerklePathFromProof hash).

Lemma computeMerklePathFromProof_loop_folds (sibs : list MerkleNodeValue)
    (idx : Z) (v : MerkleNodeValue) (acc : list MerkleNodeValue) :
  computeMerklePathFromProof_loop hash sibs idx v acc
  = acc ++ map (λ k, computeMerkleRootFromProof (take (S k) sibs) idx v)
             (seq 0 (length sibs)).
Proof.
  revert idx v acc. induction sibs as [|s rest IH]; intros idx v acc.
  - simpl. by rewrite app_nil_r.
  - simp_paths. rewrite IH, <- app_assoc. f_equal.
    cbn [length seq map app take]. simp_paths. f_equal.
    rewrite <- seq_shift, map_map. done.
Qed.

(** X4.  The path that [computeMerklePathFromProof] returns has one node more
    than there are siblings; node [k] is the fold of the first [k]
    siblings, so the path starts at the value and ends at the root that
    [computeMerkleRootFromProof] returns. *)
Theorem computeMerklePathFromProof_nodes (sibs : list MerkleNodeValue)
    (idx : Z) (v : MerkleNodeValue) :
  let path := computeMerklePathFromProof sibs idx v in
  length path = S (length sibs)
  ∧ (∀ k, (k ≤ length sibs)%nat →
       path !! k = Some (computeMerkleRootFromProof (take k sibs) idx v))
  ∧ path !! 0%nat = Some v
  ∧ last path = Some (computeMerkleRootFromProof sibs idx v).
Proof.
  cbv zeta. unfold_computeMerklePathFromProof.
  rewrite computeMerklePathFromProof_loop_folds.
  assert (Hk : ∀ k, (k ≤ length sibs)%nat →
    ([v] ++ map (λ k, computeMerkleRootFromProof (take (S k) sibs) idx v)
              (seq 0 (length sibs))) !! k
    = Some (computeMerkleRootFromProof (take k sibs) idx v)).
  { intros [|k] Hk; [done|].
    change (([v] ++ ?l) !! S k) with (l !! k).
    rewrite list_lookup_fmap, lookup_seq_lt by lia. done. }
  split; [|split; [done|split]].
  - cbn [app length]. by rewrite length_map, length_seq.
  - apply (Hk 0%nat). lia.
  - rewrite last_lookup. cbn [app length Nat.pred].
    rewrite length_map, length_seq, Hk by lia.
    by rewrite firstn_all.
Qed.

End PathFacts.

(** ** Store growth and the two versions of [setLeaf] *)

Section SetLeafMore.

Context (hash : MerkleNodeValue -> MerkleNodeValue -> MerkleNodeValue).

Local Abbreviation setLeaf_loop := (setLeaf_loop hash).
Local Abbreviation setLeaf := (setLeaf hash).
Local Abbreviation setLeaves := (setLeaves hash).
Local Abbreviation setLeaf_rootOnly_loop := (setLeaf_rootOnly_loop hash).
Local Abbreviation setLeaf_rootOnly := (setLeaf_rootOnly hash).
Local Abbreviation forEach_setLeaf := (forEach_setLeaf hash).

Lemma size_insert_bounds (m : gmap string MerkleNodeValue) (k : string)
    (v : MerkleNodeValue) :
  (size m ≤ size (<[k:=v]> m) ≤ S (size m))%nat.
Proof.
  rewrite map_size_insert. destruct (m !! k); simpl; lia.
Qed.

Lemma setLeaf_loop_size (L : nat) (st : NodeStore) (ci : Z)
    (cv : MerkleNodeValue) (sibs : list MerkleNodeValue) :
  (size (nodes st) ≤ size (nodes (setLeaf_loop L st ci cv sibs).1.1.1)
   ≤ size (nodes st) + L)%nat.
Proof.
  revert st ci cv sibs. induction L as [|L IH]; intros st ci cv sibs.
  - simpl. lia.
  - rewrite setLeaf_loop_step. cbv zeta.
    specialize (IH (NodeStore_set st (S L) ci cv) (ci / 2)
                  (parentOnPath hash ci cv
                     (NodeStore_get st (S L) (siblingIndex ci)))
                  (sibs ++ [NodeStore_get st (S L) (siblingIndex ci)])).
    pose proof (size_insert_bounds (nodes st) (nodeKey (S L) ci) cv).
    simpl in IH. lia.
Qed.

(** X5.  One [setLeaf], at any index, never shrinks the store and adds at
    most [height + 1] entries to it. *)
Theorem setLeaf_store_growth (t : ZeroMerkleTree) (idx : Z)
    (v : MerkleNodeValue) :
  (size (nodes (nodeStore t))
   ≤ size (nodes (nodeStore (setLeaf t idx v).2))
   ≤ size (nodes (nodeStore t)) + zmt_height t + 1)%nat.
Proof.
  rewrite setLeaf_unfold. cbv zeta. cbn [snd nodeStore nodes NodeStore_set].
  pose proof (setLeaf_loop_size (zmt_height t) (nodeStore t) idx v []).
  pose proof (size_insert_bounds
    (nodes (setLeaf_loop (zmt_height t) (nodeStore t) idx v []).1.1.1)
    (nodeKey 0 0)
    (computeMerkleRootFromProof hash
       (storeSiblings (nodeStore t) (zmt_height t) idx) idx v)).
  lia.
Qed.

Lemma setLeaf_rootOnly_loop_eq (L : nat) (st : NodeStore) (ci : Z)
    (cv : MerkleNodeValue) (sibs : list MerkleNodeValue) :
  setLeaf_rootOnly_loop L st ci cv
  = ((setLeaf_loop L st ci cv sibs).1.1.1,
     (setLeaf_loop L st ci cv sibs).1.1.2,
     (setLeaf_loop L st ci cv sibs).1.2).
Proof.
  revert st ci cv sibs. induction L as [|L IH]; intros st ci cv sibs.
  - done.
  - simp_rootOnly. simp_setLeaf_loop. cbv zeta.
    destruct (Z.rem ci 2 =? 0); apply IH.
Qed.

(** X6.  The version of [setLeaf] that returns nothing leaves the tree in the
    state in which the version that returns a delta proof leaves it, and
    [forEach] over a list of leaves ends in the state of the mapped calls
    at indices [0, 1, ...]. *)
Theorem setLeaf_rootOnly_same_tree (t : ZeroMerkleTree) :
  (∀ (idx : Z) (v : MerkleNodeValue),
     setLeaf_rootOnly t idx v = (setLeaf t idx v).2)
  ∧ (∀ leaves : list MerkleNodeValue,
       forEach_setLeaf t 0 leaves = (setLeaves t (inOrderCalls leaves)).2).
Proof.
  assert (Hone : ∀ t idx v, setLeaf_rootOnly t idx v = (setLeaf t idx v).2).
  { intros t' idx v. rewrite setLeaf_unfold. cbv zeta.
    unfold_setLeaf_rootOnly.
    rewrite (setLeaf_rootOnly_loop_eq _ _ _ _ []).
    destruct (setLeaf_loop_results hash (zmt_height t') (nodeStore t') idx v [])
      as [st' ->].
    done. }
  split; [apply Hone|].
  intros leaves. rewrite inOrderCalls_callsFrom.
  change 0 with (Z.of_nat 0). generalize 0%nat. revert t.
  induction leaves as [|leaf rest IH]; intros t n; [done|].
  simp_rootOnly. rewrite callsFrom_cons, setLeaves_cons. cbn [snd].
  rewrite Hone, IH.
  by replace (Z.of_nat (S n)) with (Z.of_nat n + 1) by lia.
Qed.

End SetLeafMore.

(** ** What a verified proof certifies *)

Section Soundness.

Context (hash : MerkleNodeValue -> MerkleNodeValue -> MerkleNodeValue).

Local Abbreviation setLeaf := (setLeaf hash).
Local Abbreviation setLeaves := (setLeaves hash).
Local Abbreviation setLeaf_f64 := (setLeaf_f64 hash).
Local Abbreviation setLeaves_f64 := (setLeaves_f64 hash).
Local Abbreviation ZeroMerkleTree_new := (ZeroMerkleTree_new hash).
Local Abbreviation computeMerkleRootFromProof := (computeMerkleRootFromProof hash).
Local Abbreviation verifyMerkleProof := (verifyMerkleProof hash).
Local Abbreviation verifyDeltaMerkleProof := (verifyDeltaMerkleProof hash).
Local Abbreviation treeRepresents := (treeRepresents hash).
Local Abbreviation nodeValue := (nodeValue hash).
Local Abbreviation authPath := (authPath hash).
Local Abbreviation hashCollision := (hashCollision hash).

Lemma parentOnPath_eq_or_collision (idx : Z) (v1 v2 s1 s2 : MerkleNodeValue) :
  parentOnPath hash idx v1 s1 = parentOnPath hash idx v2 s2 →
  (v1 = v2 ∧ s1 = s2) ∨ hashCollision.
Proof.
  unfold_parentOnPath. intros Heq.
  destruct (decide (v1 = v2)) as [->|Hv];
    [destruct (decide (s1 = s2)) as [->|Hs]; [by left|]|]; right.
  - destruct (Z.rem idx 2 =? 0).
    + exists v2, s1, v2, s2. split; [by right|done].
    + exists s1, v2, s2, v2. split; [by left|done].
  - destruct (Z.rem idx 2 =? 0).
    + exists v1, s1, v2, s2. split; [by left|done].
    + exists s1, v1, s2, v2. split; [by right|done].
Qed.

(** Two folds of equally many siblings from the same index that meet in
    one root have the same inputs, or expose a collision of the hash. *)
Lemma fold_eq_or_collision (s1 s2 : list MerkleNodeValue) (idx : Z)
    (v1 v2 : MerkleNodeValue) :
  length s1 = length s2 →
  computeMerkleRootFromProof s1 idx v1 = computeMerkleRootFromProof s2 idx v2 →
  (s1 = s2 ∧ v1 = v2) ∨ hashCollision.
Proof.
  revert s2 idx v1 v2.
  induction s1 as [|a s1 IH]; intros [|b s2] idx v1 v2 Hlen Heq;
    simplify_eq/=; [by left|].
  apply IH in Heq; [|done]. destruct Heq as [[-> Hp]|Hc]; [|by right].
  apply parentOnPath_eq_or_collision in Hp as [[-> ->]|Hc];
    [by left|by right].
Qed.


Lemma setLeaves_reached (h : nat) (calls : list (Z * MerkleNodeValue)) :
  Forall (λ c, 0 ≤ c.1 < 2 ^ Z.of_nat h) calls →
  treeRepresents h (setLeaves (ZeroMerkleTree_new h) calls).2
    (applyCalls noLeaves calls).
Proof. apply setLeaves_represents, represents_new. Qed.

Lemma setLeaves_f64_reached (h : nat) (calls : list (Z * MerkleNodeValue)) :
  Forall (λ c, 0 ≤ c.1 < 2 ^ Z.of_nat h ∧ c.1 < 2 ^ 53) calls →
  treeRepresents h (setLeaves_f64 (ZeroMerkleTree_new h) calls).2
    (applyCalls noLeaves calls).
Proof.
  intros Hcalls.
  destruct (Forall_in_range_safe h calls Hcalls) as [Hsafe Hrange].
  rewrite setLeaves_f64_safe by done. by apply setLeaves_reached.
Qed.

Lemma treeRepresents_getRoot (h : nat) (t : ZeroMerkleTree)
    (f : Z -> MerkleNodeValue) :
  treeRepresents h t f → getRoot t = nodeValue f h 0.
Proof.
  intros [_ (_ & _ & Hget)]. unfold getRoot.
  rewrite Hget by lia. by rewrite Nat.sub_0_r.
Qed.


(** X9.  On a tree built by [setLeaf] calls at indices in range and
    below [2^53], every node above the leaves whose children have indices
    below [2^53] reads as the hash of its two children as the store
    reads them. *)
Theorem stored_node_is_hash_of_children (h : nat)
    (calls : list (Z * MerkleNodeValue)) :
  Forall (λ c, 0 ≤ c.1 < 2 ^ Z.of_nat h ∧ c.1 < 2 ^ 53) calls →
  let st := nodeStore (setLeaves_f64 (ZeroMerkleTree_new h) calls).2 in
  ∀ (l : nat) (i : Z), (l < h)%nat → 0 ≤ i → 2 * i + 1 < 2 ^ 53 →
    NodeStore_get st l i
    = hash (NodeStore_get st (S l) (2 * i)) (NodeStore_get st (S l) (2 * i + 1)).
Proof.
  intros Hcalls. cbv zeta. intros l i Hl _ _.
  destruct (setLeaves_f64_reached h calls Hcalls) as [_ (_ & _ & Hget)].
  rewrite !Hget by lia.
  replace (h - l)%nat with (S (h - S l)) by lia. done.
Qed.

Lemma leafUpdate_comm (f : Z -> MerkleNodeValue) (i j : Z)
    (v w : MerkleNodeValue) (x : Z) :
  i ≠ j →
  leafUpdate (leafUpdate f i v) j w x = leafUpdate (leafUpdate f j w) i v x.
Proof.
  intros Hne. unfold leafUpdate.
  destruct (Z.eqb_spec x j), (Z.eqb_spec x i); congruence.
Qed.

(** X10.  On a tree built by [setLeaf] calls at indices in range and
    below [2^53], two further calls at different such indices give the
    same root in either order. *)
Theorem setLeaf_order_irrelevant (h : nat)
    (calls : list (Z * MerkleNodeValue)) (i j : Z) (v w : MerkleNodeValue) :
  Forall (λ c, 0 ≤ c.1 < 2 ^ Z.of_nat h ∧ c.1 < 2 ^ 53) calls →
  0 ≤ i < 2 ^ Z.of_nat h → i < 2 ^ 53 →
  0 ≤ j < 2 ^ Z.of_nat h → j < 2 ^ 53 → i ≠ j →
  let t := (setLeaves_f64 (ZeroMerkleTree_new h) calls).2 in
  getRoot (setLeaf_f64 (setLeaf_f64 t i v).2 j w).2
  = getRoot (setLeaf_f64 (setLeaf_f64 t j w).2 i v).2.
Proof.
  intros Hcalls Hi Hi' Hj Hj' Hne. cbv zeta.
  pose proof (setLeaves_f64_reached h calls Hcalls) as Hrep.
  rewrite !setLeaf_f64_safe by (unfold safeIndex; lia).
  rewrite (treeRepresents_getRoot h _
             (leafUpdate (leafUpdate (applyCalls noLeaves calls) i v) j w))
    by (do 2 (apply setLeaf_represents; [|done]); done).
  rewrite (treeRepresents_getRoot h _
             (leafUpdate (leafUpdate (applyCalls noLeaves calls) j w) i v))
    by (do 2 (apply setLeaf_represents; [|done]); done).
  apply nodeValue_ext. intros x _. by apply leafUpdate_comm.
Qed.

(** X11.  On a tree built by [setLeaf] calls at indices in range and
    below [2^53], writing to a leaf at such an index the value it already
    reads as, stored or defaulted, returns a delta proof whose new root
    is its old root, and the root of the tree stays. *)
Theorem setLeaf_same_value_keeps_root (h : nat)
    (calls : list (Z * MerkleNodeValue)) (idx : Z) :
  Forall (λ c, 0 ≤ c.1 < 2 ^ Z.of_nat h ∧ c.1 < 2 ^ 53) calls →
  0 ≤ idx < 2 ^ Z.of_nat h → idx < 2 ^ 53 →
  let t := (setLeaves_f64 (ZeroMerkleTree_new h) calls).2 in
  let current := NodeStore_get (nodeStore t) h idx in
  newRoot (setLeaf_f64 t idx current).1 = oldRoot (setLeaf_f64 t idx current).1
  ∧ oldValue (setLeaf_f64 t idx current).1 = current
  ∧ getRoot (setLeaf_f64 t idx current).2 = getRoot t.
Proof.
  intros Hcalls Hin Hsafe. cbv zeta.
  pose proof (setLeaves_f64_reached h calls Hcalls) as Hrep.
  rewrite !setLeaf_f64_safe by (unfold safeIndex; lia).
  set (t := (setLeaves_f64 (ZeroMerkleTree_new h) calls).2) in *.
  set (f := applyCalls noLeaves calls) in *.
  assert (Hcur : NodeStore_get (nodeStore t) h idx = f idx).
  { destruct Hrep as [_ (_ & _ & Hget)].
    rewrite Hget by lia. by rewrite Nat.sub_diag. }
  assert (Hroot : getRoot (setLeaf t idx (f idx)).2 = getRoot t).
  { rewrite (treeRepresents_getRoot h _ (leafUpdate f idx (f idx)))
      by (by apply setLeaf_represents).
    rewrite (treeRepresents_getRoot h t f) by done.
    apply nodeValue_ext. intros x _. unfold leafUpdate.
    destruct (Z.eqb_spec x idx); congruence. }
  rewrite Hcur. split; [|split; [|done]].
  - by rewrite <- setLeaf_getRoot, setLeaf_oldRoot.
  - rewrite setLeaf_unfold. cbv zeta. cbn [fst oldValue].
    destruct Hrep as [-> _]. done.
Qed.

End Soundness.

(** ** More on the append-only tree *)

Section AppendMore.

Context (hash : MerkleNodeValue -> MerkleNodeValue -> MerkleNodeValue).

Local Abbreviation appendLeaf := (appendLeaf hash).
Local Abbreviation appendLeaves := (appendLeaves hash).
Local Abbreviation setLeaf := (setLeaf hash).
Local Abbreviation setLeaves := (setLeaves hash).
Local Abbreviation ZeroMerkleTree_new := (ZeroMerkleTree_new hash).
Local Abbreviation AppendOnlyMerkleTree_new := (AppendOnlyMerkleTree_new hash).
Local Abbreviation computeZeroHashes := (computeZeroHashes hash).
Local Abbreviation computeMerkleRootFromProof := (computeMerkleRootFromProof hash).
Local Abbreviation treeRepresents := (treeRepresents hash).
Local Abbreviation frontier := (frontier hash).
Local Abbreviation nodeValue := (nodeValue hash).
Local Abbreviation authPath := (authPath hash).

Lemma delta_eta (d : IDeltaMerkleProof) :
  d = {| delta_index := delta_index d; delta_siblings := delta_siblings d;
         oldRoot := oldRoot d; oldValue := oldValue d;
         newRoot := newRoot d; newValue := newValue d |}.
Proof. by destruct d. Qed.

(** On a frontier and a store of the same leaves, [appendLeaf] returns
    the delta proof that [setLeaf] returns at the next index. *)
Lemma appendLeaf_eq_setLeaf (h : nat) (a : AppendOnlyMerkleTree)
    (z : ZeroMerkleTree) (f : Z -> MerkleNodeValue) (n : Z)
    (v : MerkleNodeValue) :
  frontier h a n f → treeRepresents h z f → emptyFrom n f → 0 ≤ n →
  (appendLeaf a v).1 = (setLeaf z n v).1.
Proof.
  intros Hfr Hz Hempty Hn.
  destruct (appendLeaf_siblings hash h a f n v Hfr Hempty Hn) as [Hs Hi].
  destruct (appendLeaf_lastProof hash a v)
    as (Hor & Hov & Hnv & _ & _ & Hnr & _).
  rewrite (delta_eta (appendLeaf a v).1).
  rewrite Hnr, Hor, Hov, Hnv, Hs, Hi, authPath_leafUpdate.
  rewrite setLeaf_unfold. cbv zeta. cbn [fst].
  destruct Hfr as (_ & _ & _ & _ & Hr & _).
  destruct Hz as [Hh Hrep]. pose proof Hrep as (_ & _ & Hget).
  rewrite Hh, (storeSiblings_represents hash h _ f h n Hrep) by lia.
  rewrite !Hget, !Nat.sub_diag, Nat.sub_0_r, Hr by lia.
  simpl. by rewrite (Hempty n) by lia.
Qed.

Lemma appendLeaves_eq_setLeaves (h : nat) (a : AppendOnlyMerkleTree)
    (z : ZeroMerkleTree) (f : Z -> MerkleNodeValue) (n : Z)
    (leaves : list MerkleNodeValue) :
  frontier h a n f → treeRepresents h z f → emptyFrom n f → 0 ≤ n →
  n + Z.of_nat (length leaves) ≤ 2 ^ Z.of_nat h →
  (appendLeaves a leaves).1 = (setLeaves z (callsFrom n leaves)).1
  ∧ root (lastProof (appendLeaves a leaves).2)
    = getRoot (setLeaves z (callsFrom n leaves)).2.
Proof.
  revert a z f n.
  induction leaves as [|v rest IH]; intros a z f n Hfr Hz Hempty Hn Hlen.
  - split; [done|]. simpl.
    destruct Hfr as (_ & _ & _ & _ & -> & _).
    symmetry. by apply (treeRepresents_getRoot hash h).
  - cbn [length] in Hlen.
    rewrite appendLeaves_cons, callsFrom_cons, setLeaves_cons. cbn [fst snd].
    rewrite (appendLeaf_eq_setLeaf h a z f n v) by done.
    destruct (appendLeaf_frontier hash h a f n v Hfr Hempty ltac:(lia))
      as [_ Hfr'].
    destruct (IH (appendLeaf a v).2 (setLeaf z n v).2 (leafUpdate f n v) (n + 1)
                Hfr' (setLeaf_represents hash h z f n v Hz ltac:(lia))
                (emptyFrom_leafUpdate f n v Hempty) ltac:(lia) ltac:(lia))
      as [-> ->].
    done.
Qed.

(** X12.  While the tree has room, the append-only tree and the sparse tree
    written at indices [0, 1, ...] return the same delta proofs, call by
    call, and report the same root. *)
Theorem appendLeaf_returns_setLeaf_proofs (h : nat)
    (leaves : list MerkleNodeValue) :
  Z.of_nat (length leaves) ≤ 2 ^ Z.of_nat h →
  (appendLeaves (AppendOnlyMerkleTree_new h) leaves).1
  = (setLeaves (ZeroMerkleTree_new h) (inOrderCalls leaves)).1
  ∧ root (lastProof (appendLeaves (AppendOnlyMerkleTree_new h) leaves).2)
    = getRoot (setLeaves (ZeroMerkleTree_new h) (inOrderCalls leaves)).2.
Proof.
  intros Hlen. rewrite inOrderCalls_callsFrom.
  apply (appendLeaves_eq_setLeaves h _ _ noLeaves 0);
    [apply frontier_new|apply represents_new|done|lia|lia].
Qed.

Lemma appendLeaves_shape (t : AppendOnlyMerkleTree)
    (leaves : list MerkleNodeValue) :
  height (appendLeaves t leaves).2 = height t
  ∧ zeroHashes (appendLeaves t leaves).2 = zeroHashes t
  ∧ (length (siblings (lastProof t)) = height t →
     length (siblings (lastProof (appendLeaves t leaves).2)) = height t)
  ∧ index (lastProof (appendLeaves t leaves).2)
    = index (lastProof t) + Z.of_nat (length leaves)
  ∧ ∀ i p, (appendLeaves t leaves).1 !! i = Some p →
      length (delta_siblings p) = height t
      ∧ delta_index p = index (lastProof t) + 1 + Z.of_nat i
      ∧ oldValue p = zeroDigest
      ∧ leaves !! i = Some (newValue p).
Proof.
  revert t. induction leaves as [|v rest IH]; intros t.
  - simpl. split; [done|]. split; [done|]. split; [done|].
    split; [lia|]. intros i p Hp. simplify_eq/=.
  - rewrite appendLeaves_cons. cbn [fst snd].
    destruct (appendLeaf_lastProof hash t v)
      as (_ & Hov & Hnv & Hi & Hlen & _ & Hl & Hh & Hz).
    destruct (IH (appendLeaf t v).2) as (IHh & IHz & IHs & IHi & IHp).
    rewrite Hl in IHs, IHi, IHp. cbn [siblings index] in IHs, IHi, IHp.
    rewrite Hh in IHh, IHs, IHp. rewrite Hz in IHz.
    split; [done|]. split; [done|]. split; [auto|].
    split; [rewrite IHi, Hi; cbn [length]; lia|].
    intros [|i] p Hp.
    + assert ((appendLeaf t v).1 = p) as <- by (by injection Hp).
      split; [done|]. split; [rewrite Hi; lia|]. split; [done|].
      by rewrite Hnv.
    + destruct (IHp i p Hp) as (? & Hidx & ? & ?).
      split; [done|]. split; [rewrite Hidx, Hi; lia|]. done.
Qed.

(** X13.  After any number of appends on a fresh tree, past its capacity too,
    the tree keeps its height and zero hashes and a [lastProof] with
    [height] siblings for the index of the last append; delta proof [i]
    has [height] siblings, index [i], old value the all-zero digest and
    new value leaf [i]. *)
Theorem appendLeaf_state_stays_small (h : nat) (leaves : list MerkleNodeValue) :
  let after := appendLeaves (AppendOnlyMerkleTree_new h) leaves in
  height after.2 = h
  ∧ zeroHashes after.2 = computeZeroHashes h
  ∧ length (siblings (lastProof after.2)) = h
  ∧ index (lastProof after.2) = Z.of_nat (length leaves) - 1
  ∧ ∀ i p, after.1 !! i = Some p →
      length (delta_siblings p) = h
      ∧ delta_index p = Z.of_nat i
      ∧ oldValue p = zeroDigest
      ∧ leaves !! i = Some (newValue p).
Proof.
  cbv zeta.
  destruct (appendLeaves_shape (AppendOnlyMerkleTree_new h) leaves)
    as (Hh & Hz & Hs & Hi & Hp).
  split; [done|]. split; [done|]. split.
  { apply Hs. simpl.
    rewrite length_take, computeZeroHashes_length. lia. }
  split; [rewrite Hi; simpl; lia|].
  intros i p Hip. destruct (Hp i p Hip) as (? & Hidx & ? & ?).
  split; [done|]. split; [rewrite Hidx; simpl; lia|]. done.
Qed.

(** Moving a subtree: the node at position [i + c] over leaves [f] is
    the node at position [i] over the leaves moved down by [c] subtrees. *)
Lemma nodeValue_shift (f g : Z -> MerkleNodeValue) (k : nat) (i c : Z) :
  (∀ j, j / 2 ^ Z.of_nat k = i → f (j + c * 2 ^ Z.of_nat k) = g j) →
  nodeValue f k (i + c) = nodeValue g k i.
Proof.
  revert i c. induction k as [|k IH]; intros i c Hfg.
  - simpl. rewrite <- (Hfg i) by (by rewrite Z.div_1_r).
    f_equal. simpl. lia.
  - simpl. f_equal.
    + replace (2 * (i + c)) with (2 * i + 2 * c) by lia.
      apply IH. intros j Hj.
      rewrite <- Hfg.
      * f_equal. rewrite pow2_succ. lia.
      * rewrite div_pow2_succ_outer, Hj. div_lia.
    + replace (2 * (i + c) + 1) with (2 * i + 1 + 2 * c) by lia.
      apply IH. intros j Hj.
      rewrite <- Hfg.
      * f_equal. rewrite pow2_succ. lia.
      * rewrite div_pow2_succ_outer, Hj. div_lia.
Qed.

Lemma emptyFrom_applyCalls (f : Z -> MerkleNodeValue) (n : Z)
    (leaves : list MerkleNodeValue) :
  emptyFrom n f →
  emptyFrom (n + Z.of_nat (length leaves)) (applyCalls f (callsFrom n leaves)).
Proof.
  revert f n. induction leaves as [|v rest IH]; intros f n He.
  - simpl. by rewrite Z.add_0_r.
  - rewrite callsFrom_cons. cbn [length].
    replace (n + Z.of_nat (S (length rest)))
      with (n + 1 + Z.of_nat (length rest)) by lia.
    apply (IH (leafUpdate f n v)). by apply emptyFrom_leafUpdate.
Qed.

(** X14.  Appending to a full tree starts over: after [2^h] appends the next
    [appendLeaf(v)] returns index [2^h] and the new root that
    [appendLeaf(v)] returns on a fresh tree, the root of a tree that holds
    [v] alone. *)
Theorem appendLeaf_on_full_tree_starts_over (h : nat)
    (leaves : list MerkleNodeValue) (v : MerkleNodeValue) :
  Z.of_nat (length leaves) = 2 ^ Z.of_nat h →
  let full := (appendLeaves (AppendOnlyMerkleTree_new h) leaves).2 in
  delta_index (appendLeaf full v).1 = 2 ^ Z.of_nat h
  ∧ newRoot (appendLeaf full v).1
    = newRoot (appendLeaf (AppendOnlyMerkleTree_new h) v).1
  ∧ root (lastProof (appendLeaf full v).2)
    = nodeValue (leafUpdate noLeaves 0 v) h 0.
Proof.
  intros Hlen. cbv zeta.
  destruct (appendLeaves_frontier hash h _ noLeaves 0 leaves
              (frontier_new hash h) ltac:(done) ltac:(lia) ltac:(lia))
    as [_ Hfr].
  pose proof (emptyFrom_applyCalls noLeaves 0 leaves ltac:(done)) as Hempty.
  rewrite Z.add_0_l, Hlen in Hfr, Hempty.
  set (f := applyCalls noLeaves (callsFrom 0 leaves)) in *.
  set (full := (appendLeaves (AppendOnlyMerkleTree_new h) leaves).2) in *.
  pose proof (pow2_pos h) as Hpos.
  destruct (appendLeaf_siblings hash h full f _ v Hfr Hempty ltac:(lia))
    as [Hs Hi].
  destruct (appendLeaf_lastProof hash full v)
    as (_ & _ & _ & _ & _ & Hnr & Hl & _).
  destruct (appendLeaf_frontier hash h (AppendOnlyMerkleTree_new h) noLeaves 0 v
              (frontier_new hash h) ltac:(done) ltac:(lia))
    as [_ (_ & _ & _ & _ & Hfresh & _)].
  destruct (appendLeaf_lastProof hash (AppendOnlyMerkleTree_new h) v)
    as (_ & _ & _ & _ & _ & _ & Hl0 & _).
  rewrite Hl0 in Hfresh. cbn [root] in Hfresh.
  assert (Hroot : newRoot (appendLeaf full v).1
                  = nodeValue (leafUpdate noLeaves 0 v) h 0).
  { rewrite Hnr, Hs, Hi, authPath_leafUpdate, fold_authPath_leafUpdate.
    rewrite Z.div_same by lia.
    change 1 with (0 + 1) at 1. apply nodeValue_shift.
    intros j Hj. apply div_pow2_range in Hj. unfold leafUpdate, noLeaves.
    destruct (Z.eqb_spec j 0) as [->|Hj0].
    - by rewrite Z.add_0_l, Z.mul_1_l, Z.eqb_refl.
    - destruct (Z.eqb_spec (j + 1 * 2 ^ Z.of_nat h) (2 ^ Z.of_nat h)); [lia|].
      apply Hempty. lia. }
  split; [done|]. split; [by rewrite Hroot, Hfresh|].
  rewrite Hl. done.
Qed.

End AppendMore.

(** ** Instances of the further properties *)

(** The calls of the sparse-tree demonstration are in range for height
    3 and below [2^53]. *)
Lemma leavesToSet_in_range :
  Forall (λ c : Z * MerkleNodeValue, 0 ≤ c.1 < 2 ^ Z.of_nat 3 ∧ c.1 < 2 ^ 53)
    (inOrderCalls leavesToSet).
Proof.
  repeat (apply Forall_cons_2;
            [split; [split; [discriminate|reflexivity]|reflexivity]|]).
  apply Forall_nil_2.
Defined.



(** After the demonstration's eight writes: node 1 of level 1 and its
    children, nodes 2 and 3 of level 2. *)
Lemma stored_node_is_hash_of_children_witness :
  let st := nodeStore (setLeaves_f64 pairHash (ZeroMerkleTree_new pairHash 3)
                         (inOrderCalls leavesToSet)).2 in
  NodeStore_get st 1 1
  = pairHash (NodeStore_get st 2 (2 * 1)) (NodeStore_get st 2 (2 * 1 + 1)).
Proof.
  apply (stored_node_is_hash_of_children pairHash 3 (inOrderCalls leavesToSet)
           leavesToSet_in_range 1%nat 1).
  - repeat constructor.
  - discriminate.
  - reflexivity.
Defined.

Lemma setLeaf_order_irrelevant_witness :
  let t := (setLeaves_f64 pairHash (ZeroMerkleTree_new pairHash 3)
              (inOrderCalls leavesToSet)).2 in
  getRoot (setLeaf_f64 pairHash (setLeaf_f64 pairHash t 1 (smallLeaf "8")).2 6
             (smallLeaf "9")).2
  = getRoot (setLeaf_f64 pairHash (setLeaf_f64 pairHash t 6 (smallLeaf "9")).2 1
               (smallLeaf "8")).2.
Proof.
  apply (setLeaf_order_irrelevant pairHash 3 (inOrderCalls leavesToSet) 1 6).
  - apply leavesToSet_in_range.
  - split; [discriminate|reflexivity].
  - reflexivity.
  - split; [discriminate|reflexivity].
  - reflexivity.
  - discriminate.
Defined.

Lemma setLeaf_same_value_keeps_root_witness :
  let t := (setLeaves_f64 pairHash (ZeroMerkleTree_new pairHash 3)
              (inOrderCalls leavesToSet)).2 in
  let current := NodeStore_get (nodeStore t) 3 4 in
  newRoot (setLeaf_f64 pairHash t 4 current).1
    = oldRoot (setLeaf_f64 pairHash t 4 current).1
  ∧ oldValue (setLeaf_f64 pairHash t 4 current).1 = current
  ∧ getRoot (setLeaf_f64 pairHash t 4 current).2 = getRoot t.
Proof.
  apply (setLeaf_same_value_keeps_root pairHash 3 (inOrderCalls leavesToSet) 4).
  - apply leavesToSet_in_range.
  - split; [discriminate|reflexivity].
  - reflexivity.
Defined.

Lemma appendLeaf_returns_setLeaf_proofs_witness :
  (appendLeaves pairHash (AppendOnlyMerkleTree_new pairHash 3) leavesToSet).1
  = (setLeaves pairHash (ZeroMerkleTree_new pairHash 3)
       (inOrderCalls leavesToSet)).1
  ∧ root (lastProof
            (appendLeaves pairHash (AppendOnlyMerkleTree_new pairHash 3)
               leavesToSet).2)
    = getRoot (setLeaves pairHash (ZeroMerkleTree_new pairHash 3)
                 (inOrderCalls leavesToSet)).2.
Proof.
  apply (appendLeaf_returns_setLeaf_proofs pairHash 3 leavesToSet).
  vm_compute. discriminate.
Defined.

Lemma appendLeaf_on_full_tree_starts_over_witness :
  let full :=
    (appendLeaves pairHash (AppendOnlyMerkleTree_new pairHash 3) leavesToSet).2 in
  delta_index (appendLeaf pairHash full (smallLeaf "8")).1 = 2 ^ Z.of_nat 3
  ∧ newRoot (appendLeaf pairHash full (smallLeaf "8")).1
    = newRoot (appendLeaf pairHash (AppendOnlyMerkleTree_new pairHash 3)
                 (smallLeaf "8")).1
  ∧ root (lastProof (appendLeaf pairHash full (smallLeaf "8")).2)
    = nodeValue pairHash (leafUpdate noLeaves 0 (smallLeaf "8")) 3 0.
Proof.
  apply (appendLeaf_on_full_tree_starts_over pairHash 3 leavesToSet).
  reflexivity.
Defined.
